(** * Repository selection of the cred explorer

    A shallow embedding of [src/app/credExplorer/RepositorySelect.js]:
    the repository identifier codec ([validateRepo], [repoStringToRepo]
    and the option strings of the selector), the status resolver
    ([loadStatus]) and the controller callbacks ([componentDidMount],
    [onChange] and the write-through callback of
    [LocalStoreRepositorySelect]), followed by the properties the
    specification states about them. *)

From Stdlib Require Import Floats Ascii Sorted Permutation.
From stdpp Require Import gmap strings list.

#[local] Set Warnings "-register-all".
#[local] Open Scope string_scope.

(** ** JavaScript values *)

(** The values a [LocalStore] hands back are the results of [JSON.parse]
    (or whatever a fake store holds): [null], booleans, IEEE doubles,
    strings, arrays and plain objects.  An object is the list of its own
    enumerable properties, read by key. *)
Inductive JsValue : Type :=
  | JNull
  | JBool (b : bool)
  | JNum (n : float)
  | JStr (s : string)
  | JArr (items : list JsValue)
  | JObj (fields : list (string * JsValue)).

(** [object[key]] restricted to own properties. *)
Fixpoint getOwn (key : string) (fields : list (string * JsValue)) : option JsValue :=
  match fields with
  | [] => None
  | (k, v) :: rest => if String.eqb key k then Some v else getOwn key rest
  end.

(** ** Exceptions

    The three [Error]s the file throws are told apart by what their
    message is built from; [Thrown] is anything a collaborator throws
    (a rejected [fetch], a body that is not JSON, a decoder or a store
    that raises). *)
Inductive JsError : Type :=
  | InvalidRepositoryOwner (owner : string)
  | InvalidRepositoryName (name : string)
  | InvalidRepoString (x : string)
  | Thrown (v : JsValue).

(** The outcome of a call that may throw. *)
Inductive Exc (A : Type) : Type :=
  | Ok (a : A)
  | Throw (e : JsError).
Arguments Ok {A} a.
Arguments Throw {A} e.

Definition exc_bind {A B : Type} (c : Exc A) (k : A -> Exc B) : Exc B :=
  match c with
  | Ok a => k a
  | Throw e => Throw e
  end.

Declare Scope exc_scope.
Delimit Scope exc_scope with exc.
Notation "'let*' x ':=' c 'in' k" := (exc_bind c (fun x => k))
  (at level 10, x pattern, c at level 100, k at level 200) : exc_scope.

(** ** lodash *)
Module Lodash.

(** [eq] of two numbers: [===], or both [NaN]. *)
Definition eqNumber (value other : float) : bool :=
  PrimFloat.eqb value other || (PrimFloat.is_nan value && PrimFloat.is_nan other).

(** [isEqual]: primitives by value, arrays element by element, objects
    by the same number of own keys, each key of the first owned by the
    second with a deeply equal value. *)
Fixpoint deepEqual (value other : JsValue) {struct value} : bool :=
  match value, other with
  | JNull, JNull => true
  | JBool x, JBool y => Bool.eqb x y
  | JNum x, JNum y => eqNumber x y
  | JStr x, JStr y => String.eqb x y
  | JArr xs, JArr ys =>
      (fix equalArrays (xs ys : list JsValue) : bool :=
         match xs, ys with
         | [], [] => true
         | x :: xs', y :: ys' => deepEqual x y && equalArrays xs' ys'
         | _, _ => false
         end) xs ys
  | JObj fs, JObj gs =>
      Nat.eqb (length fs) (length gs) &&
      (fix equalObjects (fs : list (string * JsValue)) : bool :=
         match fs with
         | [] => true
         | (k, v) :: fs' =>
             match getOwn k gs with
             | Some w => deepEqual v w
             | None => false
             end && equalObjects fs'
         end) fs
  | _, _ => false
  end.

(** [compareAscending] on strings: JavaScript's [<] and [>] compare
    strings unit by unit, a proper prefix being smaller. *)
Definition compareAscending (value other : string) : comparison :=
  String.compare value other.

(** [compareMultiple]: the first criterion that tells the two apart
    decides. *)
Fixpoint compareMultiple (objCriteria othCriteria : list string) : comparison :=
  match objCriteria, othCriteria with
  | c :: cs, d :: ds =>
      match compareAscending c d with
      | Eq => compareMultiple cs ds
      | result => result
      end
  | _, _ => Eq
  end.

Section SortBy.
Context {A : Type} (iteratees : list (A -> string)).

Definition criteria (x : A) : list string := map (fun f => f x) iteratees.

(** [x] comes from an earlier index than every element of [sorted]:
    it goes before the first element it is not greater than (ties
    keep the original order, the [object.index - other.index] of
    [compareMultiple]). *)
Fixpoint insertSorted (x : A) (sorted : list A) : list A :=
  match sorted with
  | [] => [x]
  | y :: rest =>
      match compareMultiple (criteria x) (criteria y) with
      | Gt => y :: insertSorted x rest
      | _ => x :: y :: rest
      end
  end.

(** [baseOrderBy(collection, iteratees, [])]: a new array, stably
    sorted ascending by the iteratees in turn. *)
Fixpoint baseOrderBy (collection : list A) : list A :=
  match collection with
  | [] => []
  | x :: rest => insertSorted x (baseOrderBy rest)
  end.
End SortBy.

(** [sortBy(collection, ...iteratees)]. *)
Definition sortBy {A : Type} (collection : list A) (iteratees : list (A -> string)) : list A :=
  baseOrderBy iteratees collection.

End Lodash.

(** ** util/null *)
Module NullUtil.

(** Modelled from the spec: [orElse] of [util/null.js], a module whose
    source is not at hand.  "If no persisted preference exists, or none
    matches, the selection falls back to" the second argument:
    [orElse x d] is [x] unless [x] is [null] or [undefined], and [d]
    then. *)
Definition orElse {T : Type} (x : option T) (defaultValue : T) : T :=
  match x with
  | Some v => v
  | None => defaultValue
  end.

End NullUtil.

(** ** Repositories *)

Record Repo : Type := mkRepo { owner : string; name : string }.

(** A [Repo] as the JavaScript object it is. *)
Definition repoToJs (r : Repo) : JsValue :=
  JObj [("owner", JStr (owner r)); ("name", JStr (name r))].

Definition REPO_KEY : string := "selectedRepository".

Inductive Status : Type :=
  | LOADING
  | VALID (availableRepos : list Repo) (selectedRepo : Repo)
  | NO_REPOS
  | FAILURE.

(** ** The codec

    Strings are sequences of 8-bit characters, compared by code. *)

(** The class [[A-Za-z0-9_-]]. *)
Definition validChar (c : ascii) : bool :=
  (Ascii.leb "A" c && Ascii.leb c "Z")
  || (Ascii.leb "a" c && Ascii.leb c "z")
  || (Ascii.leb "0" c && Ascii.leb c "9")
  || Ascii.eqb c "_"
  || Ascii.eqb c "-".

(** [[A-Za-z0-9_-]*$] from the current position. *)
Fixpoint validChars (s : string) : bool :=
  match s with
  | EmptyString => true
  | String c s' => validChar c && validChars s'
  end.

(** [s.match(validRe)] is not [null], for
    [validRe = /^[A-Za-z0-9_-]+$/]. *)
Definition matchValidRe (s : string) : bool :=
  match s with
  | EmptyString => false
  | String c s' => validChar c && validChars s'
  end.

Definition validateRepo (repo : Repo) : Exc unit :=
  if negb (matchValidRe (owner repo)) then Throw (InvalidRepositoryOwner (owner repo))
  else if negb (matchValidRe (name repo)) then Throw (InvalidRepositoryName (name repo))
  else Ok tt.

(** [x.split(sep)] for a one-character separator: the pieces between
    the occurrences of [sep], never an empty array. *)
Fixpoint split (sep : ascii) (x : string) : list string :=
  match x with
  | EmptyString => [EmptyString]
  | String c x' =>
      if Ascii.eqb c sep then EmptyString :: split sep x'
      else
        match split sep x' with
        | piece :: pieces => String c piece :: pieces
        | [] => [String c EmptyString]
        end
  end.

Definition repoStringToRepo (x : string) : Exc Repo :=
  (let pieces := split "/" x in
   match pieces with
   | [piece0; piece1] =>
       let repo := {| owner := piece0; name := piece1 |} in
       let* _ := validateRepo repo in
       Ok repo
   | _ => Throw (InvalidRepoString x)
   end)%exc.

(** The [value] of an [<option>]: [`${owner}/${name}`]. *)
Definition repoString (r : Repo) : string :=
  owner r +:+ "/" +:+ name r.

(** ** Collaborators *)

(** What [await fetch(url)] hands back when it does not reject: the
    [ok] flag and the outcome of [await response.json()]. *)
Record Response : Type := mkResponse { ok : bool; json : Exc JsValue }.

(** The [LocalStore] interface, over the state [S] of an implementation.
    [get store key whenUnavailable] may throw. *)
Class LocalStore (S : Type) : Type := {
  get : S -> string -> JsValue -> Exc JsValue;
  set : S -> string -> JsValue -> S
}.

(** The in-memory store: a map from keys to values. *)
#[export] Instance MemoryLocalStore : LocalStore (gmap string JsValue) := {
  get store key whenUnavailable := Ok (default whenUnavailable (store !! key));
  set store key data := <[key := data]> store
}.

(** A store whose reads always throw. *)
Inductive ThrowingStore : Type := throwingStore.

#[export] Instance ThrowingLocalStore : LocalStore ThrowingStore := {
  get _ key _ := Throw (Thrown (JStr key));
  set store _ _ := store
}.

(** ** Asynchronous code with a console

    An [async] body threads what [console.error] has printed and ends
    in a value or in a thrown exception (a rejected promise). *)
Inductive Logged : Type :=
  | LoggedResponse (response : Response)
  | LoggedError (e : JsError).

Definition Async (A : Type) : Type := list Logged -> list Logged * Exc A.

Definition ret {A : Type} (a : A) : Async A :=
  fun console => (console, Ok a).

Definition bind {A B : Type} (c : Async A) (k : A -> Async B) : Async B :=
  fun console =>
    match c console with
    | (console', Ok a) => k a console'
    | (console', Throw e) => (console', Throw e)
    end.

(** A call, or an awaited promise, with the given outcome. *)
Definition await {A : Type} (outcome : Exc A) : Async A :=
  fun console => (console, outcome).

Definition console_error (entry : Logged) : Async unit :=
  fun console => ((console ++ [entry])%list, Ok tt).

(** [try { body } catch (e) { handler(e) }]. *)
Definition try_catch {A : Type} (body : Async A) (handler : JsError -> Async A) : Async A :=
  fun console =>
    match body console with
    | (console', Ok a) => (console', Ok a)
    | (console', Throw e) => handler e console'
    end.

Declare Scope async_scope.
Delimit Scope async_scope with async.
Notation "'let*' x ':=' c 'in' k" := (bind c (fun x => k))
  (at level 10, x pattern, c at level 100, k at level 200) : async_scope.

(** ** The resolver *)

Section Resolver.
Context {S : Type} `{LocalStore S}.

(** The imports of [./repoRegistry], the endpoint and the decoder of
    the response body, and the browser's [fetch]: parameters of the
    resolver. *)
Variable REPO_REGISTRY_API : string.
Variable fetch : string -> Exc Response.
Variable fromJSON : JsValue -> Exc (list Repo).

(** [availableRepos.length === 0] is the empty list; in the other case
    [first] is only the default [nth] asks for, index [length - 1]
    being in range. *)
Definition loadStatus (localStore : S) : Async Status :=
  (try_catch
     (let* response := await (fetch REPO_REGISTRY_API) in
      if negb (ok response) then
        let* _ := console_error (LoggedResponse response) in
        ret FAILURE
      else
        let* json := await (json response) in
        let* availableRepos := await (fromJSON json) in
        match availableRepos with
        | [] => ret NO_REPOS
        | first :: _ =>
            let* localStoreRepo := await (get localStore REPO_KEY JNull) in
            let selectedRepo :=
              NullUtil.orElse
                (find (fun x => Lodash.deepEqual (repoToJs x) localStoreRepo) availableRepos)
                (nth (length availableRepos - 1) availableRepos first) in
            let sortedRepos := Lodash.sortBy availableRepos [owner; name] in
            ret (VALID sortedRepos selectedRepo)
        end)
     (fun e =>
        let* _ := console_error (LoggedError e) in
        ret FAILURE))%async.

(** The status of a resolution that gets as far as the store. *)
Definition resolved (availableRepos : list Repo) (first : Repo) (localStoreRepo : JsValue)
  : Status :=
  VALID
    (Lodash.sortBy availableRepos [owner; name])
    (NullUtil.orElse
       (find (fun x => Lodash.deepEqual (repoToJs x) localStoreRepo) availableRepos)
       (nth (length availableRepos - 1) availableRepos first)).

(** The outcomes of [loadStatus], one per path through its body:
    what the console holds afterwards, and the status. *)
Inductive Resolution (localStore : S) (console : list Logged)
  : list Logged -> Status -> Prop :=
  | fetch_rejected e :
      fetch REPO_REGISTRY_API = Throw e ->
      Resolution localStore console (console ++ [LoggedError e])%list FAILURE
  | response_not_ok response :
      fetch REPO_REGISTRY_API = Ok response -> ok response = false ->
      Resolution localStore console (console ++ [LoggedResponse response])%list FAILURE
  | body_not_json response e :
      fetch REPO_REGISTRY_API = Ok response -> ok response = true ->
      json response = Throw e ->
      Resolution localStore console (console ++ [LoggedError e])%list FAILURE
  | body_not_decoded response body e :
      fetch REPO_REGISTRY_API = Ok response -> ok response = true ->
      json response = Ok body -> fromJSON body = Throw e ->
      Resolution localStore console (console ++ [LoggedError e])%list FAILURE
  | registry_empty response body :
      fetch REPO_REGISTRY_API = Ok response -> ok response = true ->
      json response = Ok body -> fromJSON body = Ok [] ->
      Resolution localStore console console NO_REPOS
  | store_throws response body first rest e :
      fetch REPO_REGISTRY_API = Ok response -> ok response = true ->
      json response = Ok body -> fromJSON body = Ok (first :: rest) ->
      get localStore REPO_KEY JNull = Throw e ->
      Resolution localStore console (console ++ [LoggedError e])%list FAILURE
  | registry_resolved response body first rest localStoreRepo :
      fetch REPO_REGISTRY_API = Ok response -> ok response = true ->
      json response = Ok body -> fromJSON body = Ok (first :: rest) ->
      get localStore REPO_KEY JNull = Ok localStoreRepo ->
      Resolution localStore console console (resolved (first :: rest) first localStoreRepo).

(** ** The controller

    The component with what it acts on: its [state.status], the store
    of [props.localStore], and the repositories [props.onChange] (the
    host application's callback) has been called with, oldest first. *)
Record Component : Type := mkComponent {
  state_status : Status;
  props_localStore : S;
  props_onChange_calls : list Repo
}.

(** [new RepositorySelect(props)]. *)
Definition constructor (localStore : S) : Component :=
  {| state_status := LOADING;
     props_localStore := localStore;
     props_onChange_calls := [] |}.

Definition setState (status : Status) (this : Component) : Component :=
  {| state_status := status;
     props_localStore := props_localStore this;
     props_onChange_calls := props_onChange_calls this |}.

Definition props_onChange (x : Repo) (this : Component) : Component :=
  {| state_status := state_status this;
     props_localStore := props_localStore this;
     props_onChange_calls := (props_onChange_calls this ++ [x])%list |}.

Definition localStore_set (key : string) (data : JsValue) (this : Component) : Component :=
  {| state_status := state_status this;
     props_localStore := set (props_localStore this) key data;
     props_onChange_calls := props_onChange_calls this |}.

(** [componentDidMount], run to the end of its [then] callback. *)
Definition componentDidMount (this : Component) (console : list Logged)
  : Component * list Logged :=
  match loadStatus (props_localStore this) console with
  | (console', Ok status) =>
      let this := setState status this in
      (match status with
       | VALID _ selectedRepo => props_onChange selectedRepo this
       | _ => this
       end, console')
  | (console', Throw _) => (this, console')
  end.

(** [RepositorySelect.onChange]. *)
Definition onChange (selectedRepo : Repo) (this : Component) : Component :=
  let status := state_status this in
  let this :=
    match status with
    | VALID availableRepos _ => setState (VALID availableRepos selectedRepo) this
    | _ => this
    end in
  props_onChange selectedRepo this.

(** The [onChange] that [LocalStoreRepositorySelect.render] passes to
    its children, wrapped around [RepositorySelect.onChange] as
    [RepositorySelect.render] wires it: what a user-driven selection
    of [repo] runs. *)
Definition onUserSelect (repo : Repo) (this : Component) : Component :=
  let this := onChange repo this in
  localStore_set REPO_KEY (repoToJs repo) this.

(** The [<option>] values [PureRepositorySelect.render] offers. *)
Definition options (status : Status) : list string :=
  match status with
  | VALID availableRepos _ => map repoString availableRepos
  | _ => []
  end.

(** The [onChange] of the [<select>]: the chosen option's value is
    parsed, then passed on. *)
Definition select_onChange (repoString : string) (this : Component) : Exc Component :=
  (let* repo := repoStringToRepo repoString in
   Ok (onUserSelect repo this))%exc.

End Resolver.

Arguments Component S : clear implicits.

(** ** Properties of a status *)

(** The availability invariant of [VALID]. *)
Definition selected_is_available (status : Status) : Prop :=
  match status with
  | VALID availableRepos selectedRepo => selectedRepo ∈ availableRepos
  | _ => True
  end.

(** Ascending by owner, then by name. *)
Definition owner_then_name (x y : Repo) : Prop :=
  String.compare (owner x) (owner y) = Lt
  \/ (owner x = owner y /\ String.compare (name x) (name y) <> Gt).

(** [x] may come before [y] in an array sorted by [iteratees]. *)
Definition notGreater {A : Type} (iteratees : list (A -> string)) (x y : A) : Prop :=
  Lodash.compareMultiple (Lodash.criteria iteratees x) (Lodash.criteria iteratees y) <> Gt.

(** The number of occurrences of [c] in [s]. *)
Fixpoint occurrences (c : ascii) (s : string) : nat :=
  match s with
  | EmptyString => 0
  | String c' s' => (if Ascii.eqb c' c then 1 else 0) + occurrences c s'
  end.

(** ** A registry for the examples *)

Definition repo_az : Repo := {| owner := "a"; name := "z" |}.
Definition repo_aa : Repo := {| owner := "a"; name := "a" |}.
Definition repo_bm : Repo := {| owner := "b"; name := "m" |}.

(** A decoder for the fake registry: the body is an array of objects
    with string fields [owner] and [name]. *)
Fixpoint decodeRepos (items : list JsValue) : Exc (list Repo) :=
  match items with
  | [] => Ok []
  | JObj fields :: rest =>
      match getOwn "owner" fields, getOwn "name" fields with
      | Some (JStr o), Some (JStr n) =>
          (let* repos := decodeRepos rest in
           Ok ({| owner := o; name := n |} :: repos))%exc
      | _, _ => Throw (Thrown (JObj fields))
      end
  | other :: _ => Throw (Thrown other)
  end.

Definition fakeFromJSON (json : JsValue) : Exc (list Repo) :=
  match json with
  | JArr items => decodeRepos items
  | other => Throw (Thrown other)
  end.

Definition fakeFetch (response : Exc Response) (url : string) : Exc Response :=
  response.

Definition registryBody (repos : list Repo) : Response :=
  {| ok := true; json := Ok (JArr (map repoToJs repos)) |}.

Definition fakeUrl : string := "/registry.json".

(** [loadStatus] against the fakes: the registry answers [response],
    the store is in memory. *)
Definition fakeLoadStatus (response : Exc Response) (store : gmap string JsValue)
  : Async Status :=
  loadStatus fakeUrl (fakeFetch response) fakeFromJSON store.

(** The store after the user has picked [repo]. *)
Definition storeWith (data : JsValue) : gmap string JsValue :=
  {[ REPO_KEY := data ]}.

(** ** The selector control *)

Record OptionElement : Type := mkOption {
  option_value : string;
  option_key : string;
  option_text : string
}.

Record SelectElement : Type := mkSelect {
  select_value : string;
  select_options : list OptionElement
}.

(** What [PureRepositorySelect] renders: the [<label>] of
    [renderSelect], with its caption, the [{" "}] after it and the
    [<select>] unless the [&&] left [false] in its place, or the
    [<span>] of [renderError].  The [onChange] of the [<select>] is
    [select_onChange]. *)
Inductive Element : Type :=
  | LabelElement (caption : string) (space : string) (select : option SelectElement)
  | SpanElement (fontWeight color : string) (text : string).

Definition renderSelect (availableRepos : list Repo) (selectedRepo : option Repo) : Element :=
  LabelElement "Please choose a repository to inspect:" " "
    match selectedRepo with
    | None => None
    | Some selectedRepo =>
        Some
          {| select_value := owner selectedRepo +:+ "/" +:+ name selectedRepo;
             select_options :=
               map
                 (fun r =>
                    let repoString := owner r +:+ "/" +:+ name r in
                    {| option_value := repoString;
                       option_key := repoString;
                       option_text := repoString |})
                 availableRepos |}
    end.

Definition renderError (text : string) : Element :=
  SpanElement "bold" "red" text.

(** [PureRepositorySelect.render]; the [default] of its [switch] has no
    status left to catch. *)
Definition render (status : Status) : Element :=
  match status with
  | LOADING => renderSelect [] None
  | VALID availableRepos selectedRepo => renderSelect availableRepos (Some selectedRepo)
  | NO_REPOS => renderError "Error: No repositories found."
  | FAILURE =>
      renderError
        ("Error: Unable to load repository registry. " +:+ "See console for details.")
  end.

(** The [<select>] of an element, if it has one. *)
Definition selectOf (element : Element) : option SelectElement :=
  match element with
  | LabelElement _ _ select => select
  | SpanElement _ _ _ => None
  end.

(** The values a change event of the rendered [<select>] can carry:
    those of its [<option>]s. *)
Definition offered (status : Status) : list string :=
  match selectOf (render status) with
  | Some select => map option_value (select_options select)
  | None => []
  end.

(** ** Sessions

    The components a user can reach from [start] through the selector:
    each step picks one of the options on offer and runs the handler
    of the [<select>] to its end. *)
Inductive Session {S : Type} `{LocalStore S} (start : Component S) : Component S -> Prop :=
  | session_start : Session start start
  | session_pick (this this' : Component S) (value : string) :
      Session start this ->
      value ∈ offered (state_status this) ->
      select_onChange value this = Ok this' ->
      Session start this'.

(** The store after the repositories of [picked] have been written to
    it in turn. *)
Definition writeAll {S : Type} `{LocalStore S} (picked : list Repo) (store : S) : S :=
  fold_left (fun store repo => set store REPO_KEY (repoToJs repo)) picked store.

(** [pieces.join(sep)]. *)
Fixpoint join (sep : ascii) (pieces : list string) : string :=
  match pieces with
  | [] => EmptyString
  | [piece] => piece
  | piece :: rest => piece +:+ String sep (join sep rest)
  end.

(** The [type] of a status. *)
Inductive StatusType : Type := LOADING_t | VALID_t | NO_REPOS_t | FAILURE_t.

Definition statusType (status : Status) : StatusType :=
  match status with
  | LOADING => LOADING_t
  | VALID _ _ => VALID_t
  | NO_REPOS => NO_REPOS_t
  | FAILURE => FAILURE_t
  end.

(** * Properties *)

(** ** Results of calls *)

Lemma exc_bind_Ok {A B : Type} (c : Exc A) (k : A -> Exc B) (b : B) :
  exc_bind c k = Ok b <-> exists a, c = Ok a /\ k a = Ok b.
Proof.
  destruct c as [a|e]; simpl; split.
  - intros Hk. exists a. split; [reflexivity | exact Hk].
  - intros (a' & Ha & Hk). injection Ha as ->. exact Hk.
  - discriminate.
  - intros (a' & Ha & _). discriminate.
Qed.

(** ** The codec *)

Lemma validChar_slash : validChar "/" = false.
Proof. reflexivity. Qed.

Lemma validChars_no_slash (s : string) :
  validChars s = true -> occurrences "/" s = 0.
Proof.
  induction s as [|c s IH]; simpl; [reflexivity|].
  intros [Hc Hs]%andb_true_iff.
  destruct (Ascii.eqb_spec c "/") as [->|_].
  - rewrite validChar_slash in Hc. discriminate.
  - simpl. apply IH, Hs.
Qed.

Lemma matchValidRe_spec (s : string) :
  matchValidRe s = true <-> s <> "" /\ validChars s = true.
Proof.
  destruct s as [|c s]; simpl.
  - split; [discriminate | intros [Hne _]; contradiction].
  - split; [intros Hm; split; [discriminate | exact Hm] | intros [_ Hm]; exact Hm].
Qed.

Lemma validChars_Forall (s : string) :
  validChars s = true <-> Forall (fun c => validChar c = true) (String.list_ascii_of_string s).
Proof.
  induction s as [|c s IH]; simpl.
  - split; [constructor | reflexivity].
  - rewrite andb_true_iff, Forall_cons, IH. reflexivity.
Qed.

Lemma validChars_false (s : string) :
  validChars s = false <->
  exists c, c ∈ String.list_ascii_of_string s /\ validChar c = false.
Proof.
  induction s as [|c s IH]; simpl.
  - split; [discriminate | intros (c & Hc & _); inversion Hc].
  - rewrite andb_false_iff, IH. split.
    + intros [Hc | (c' & Hin & Hc')].
      * exists c. split; [left | exact Hc].
      * exists c'. split; [right; exact Hin | exact Hc'].
    + intros (c' & Hin & Hc').
      apply elem_of_cons in Hin as [-> | Hin]; [left; exact Hc' | right; eauto].
Qed.

Lemma split_not_nil (sep : ascii) (x : string) : split sep x <> [].
Proof.
  destruct x as [|c x]; simpl; [discriminate|].
  destruct (Ascii.eqb c sep); [discriminate|].
  destruct (split sep x); discriminate.
Qed.

Lemma split_length (sep : ascii) (x : string) :
  length (split sep x) = Datatypes.S (occurrences sep x).
Proof.
  induction x as [|c x IH]; simpl; [reflexivity|].
  destruct (Ascii.eqb c sep); simpl.
  - rewrite IH. reflexivity.
  - destruct (split sep x) as [|p ps] eqn:E; simpl in *; [discriminate | exact IH].
Qed.

Lemma split_no_sep (sep : ascii) (x : string) :
  occurrences sep x = 0 -> split sep x = [x].
Proof.
  induction x as [|c x IH]; simpl; [reflexivity|].
  destruct (Ascii.eqb c sep); simpl; [discriminate|].
  intros Hx. rewrite (IH Hx). reflexivity.
Qed.

Lemma split_one (sep : ascii) (x p : string) :
  split sep x = [p] -> x = p /\ occurrences sep p = 0.
Proof.
  intros Hs.
  assert (Hlen : occurrences sep x = 0).
  { pose proof (split_length sep x) as Hl. rewrite Hs in Hl. simpl in Hl. lia. }
  rewrite (split_no_sep _ _ Hlen) in Hs. injection Hs as <-. split; [reflexivity | exact Hlen].
Qed.

Lemma split_app_sep (sep : ascii) (o n : string) :
  occurrences sep o = 0 ->
  split sep (o +:+ String sep n) = o :: split sep n.
Proof.
  induction o as [|c o IH]; simpl.
  - intros _. rewrite Ascii.eqb_refl. reflexivity.
  - destruct (Ascii.eqb c sep); simpl; [discriminate|].
    intros Ho. rewrite (IH Ho). reflexivity.
Qed.

Lemma split_two (sep : ascii) (x p0 p1 : string) :
  split sep x = [p0; p1] ->
  x = p0 +:+ String sep p1 /\ occurrences sep p0 = 0 /\ occurrences sep p1 = 0.
Proof.
  revert p0. induction x as [|c x IH]; intros p0; simpl; [discriminate|].
  destruct (Ascii.eqb_spec c sep) as [->|Hne].
  - intros Hs. injection Hs as <- Hs.
    apply split_one in Hs as [-> Hp1]. simpl. auto.
  - destruct (split sep x) as [|piece pieces] eqn:E; [discriminate|].
    intros Hs. injection Hs as <- ->.
    destruct (IH piece eq_refl) as (-> & Hp & Hp1).
    simpl. apply Ascii.eqb_neq in Hne. rewrite Hne. auto.
Qed.

Lemma occurrences_app (c : ascii) (s t : string) :
  occurrences c (s +:+ t) = occurrences c s + occurrences c t.
Proof.
  induction s as [|c' s IH]; simpl; [reflexivity|]. rewrite IH. lia.
Qed.

Lemma app_sep_inj (sep : ascii) (o n o' n' : string) :
  occurrences sep o = 0 -> occurrences sep o' = 0 ->
  o +:+ String sep n = o' +:+ String sep n' -> o = o' /\ n = n'.
Proof.
  revert o'. induction o as [|c o IH]; intros [|c' o']; simpl.
  - intros _ _ Heq. injection Heq as ->. auto.
  - intros _ Ho' Heq. injection Heq as <- _.
    rewrite Ascii.eqb_refl in Ho'. discriminate.
  - intros Ho _ Heq. injection Heq as -> _.
    rewrite Ascii.eqb_refl in Ho. discriminate.
  - intros Ho Ho' Heq. injection Heq as <- Heq.
    destruct (Ascii.eqb c sep); [discriminate|]. simpl in *.
    destruct (IH o' Ho Ho' Heq) as [-> ->]. auto.
Qed.

Lemma repoStringToRepo_Ok (x : string) (r : Repo) :
  repoStringToRepo x = Ok r <->
  x = repoString r /\ matchValidRe (owner r) = true /\ matchValidRe (name r) = true.
Proof.
  unfold repoStringToRepo, repoString. split.
  - destruct (split "/" x) as [|p0 [|p1 [|p2 ps]]] eqn:E; try discriminate.
    intros [[] [Hv Hr]]%exc_bind_Ok. injection Hr as <-. simpl.
    apply split_two in E as (-> & _ & _).
    unfold validateRepo in Hv. simpl in Hv.
    destruct (matchValidRe p0); [|discriminate].
    destruct (matchValidRe p1); [|discriminate]. auto.
  - intros (-> & Ho & Hn). destruct r as [o n]. simpl in *.
    pose proof Ho as [_ Ho']%matchValidRe_spec.
    pose proof Hn as [_ Hn']%matchValidRe_spec.
    change ("/" +:+ n) with (String "/" n).
    rewrite split_app_sep by (apply validChars_no_slash, Ho').
    rewrite split_no_sep by (apply validChars_no_slash, Hn').
    unfold validateRepo. simpl. rewrite Ho, Hn. reflexivity.
Qed.

Lemma matchValidRe_false (s : string) :
  matchValidRe s = false <->
  s = "" \/ exists c, c ∈ String.list_ascii_of_string s /\ validChar c = false.
Proof.
  rewrite <- validChars_false. destruct s as [|c s]; simpl.
  - split; [left; reflexivity | reflexivity].
  - split; [intros Hm; right; exact Hm | intros [Habs | Hm]; [discriminate | exact Hm]].
Qed.

Lemma repoString_occurrences (r : Repo) :
  validChars (owner r) = true -> validChars (name r) = true ->
  occurrences "/" (repoString r) = 1.
Proof.
  intros Ho Hn. unfold repoString.
  rewrite !occurrences_app, (validChars_no_slash _ Ho), (validChars_no_slash _ Hn).
  reflexivity.
Qed.

(** C7.  Round trip of the codec: for a repository whose owner and
    name both match [/^[A-Za-z0-9_-]+$/], parsing the option string
    ["owner/name"] gives the repository back. *)
Theorem repoStringToRepo_repoString (r : Repo) :
  matchValidRe (owner r) = true ->
  matchValidRe (name r) = true ->
  repoStringToRepo (repoString r) = Ok r.
Proof.
  intros Ho Hn. apply repoStringToRepo_Ok. auto.
Qed.

Lemma repoStringToRepo_repoString_witness :
  matchValidRe (owner repo_az) = true /\
  matchValidRe (name repo_az) = true /\
  repoStringToRepo (repoString repo_az) = Ok repo_az.
Proof.
  split; [reflexivity|]. split; [reflexivity|].
  apply (repoStringToRepo_repoString repo_az); reflexivity.
Defined.

(** C8.  [repoStringToRepo] throws exactly on the tokens without a
    slash, with more than one slash, or of the form [o/n] with [o] or
    [n] empty or holding a character outside [[A-Za-z0-9_-]]; on every
    other token it returns the text before the slash as owner and the
    text after it as name. *)
Theorem repoStringToRepo_throws_iff (token : string) :
  ((exists e, repoStringToRepo token = Throw e) <->
   occurrences "/" token = 0
   \/ 1 < occurrences "/" token
   \/ exists o n,
        token = o +:+ "/" +:+ n
        /\ (o = "" \/ n = ""
            \/ (exists c, c ∈ String.list_ascii_of_string o /\ validChar c = false)
            \/ (exists c, c ∈ String.list_ascii_of_string n /\ validChar c = false)))
  /\ (forall r, repoStringToRepo token = Ok r ->
        token = owner r +:+ "/" +:+ name r
        /\ occurrences "/" (owner r) = 0
        /\ occurrences "/" (name r) = 0).
Proof.
  split.
  - split.
    + intros [e He].
      destruct (occurrences "/" token) as [|[|k]] eqn:Hocc; [left; reflexivity | | right; left; lia].
      right; right.
      pose proof (split_length "/" token) as Hlen. rewrite Hocc in Hlen.
      unfold repoStringToRepo in He.
      destruct (split "/" token) as [|p0 [|p1 [|p2 ps]]] eqn:E; try discriminate.
      apply split_two in E as (-> & _ & _).
      exists p0, p1. split; [reflexivity|].
      unfold validateRepo in He. simpl in He.
      destruct (matchValidRe p0) eqn:H0; simpl in He.
      * destruct (matchValidRe p1) eqn:H1; simpl in He; [discriminate|].
        apply matchValidRe_false in H1 as [-> | H1]; auto.
      * apply matchValidRe_false in H0 as [-> | H0]; auto.
    + intros Hbad. destruct (repoStringToRepo token) as [r|e] eqn:Hr; [exfalso | eauto].
      apply repoStringToRepo_Ok in Hr as (-> & Ho & Hn).
      apply matchValidRe_spec in Ho as [Hone Ho], Hn as [Hnne Hn].
      pose proof (repoString_occurrences r Ho Hn) as Hocc.
      destruct Hbad as [Hz | [Hm | (o & n & Heq & Hbad)]]; [lia | lia |].
      assert (Hoo : occurrences "/" o = 0).
      { rewrite Heq, !occurrences_app in Hocc. simpl in Hocc. lia. }
      unfold repoString in Heq.
      apply app_sep_inj in Heq as [<- <-];
        [| apply validChars_no_slash, Ho | exact Hoo].
      destruct Hbad as [Hb | [Hb | [Hb | Hb]]]; try contradiction.
      * apply validChars_false in Hb. congruence.
      * apply validChars_false in Hb. congruence.
  - intros r (-> & Ho & Hn)%repoStringToRepo_Ok.
    apply matchValidRe_spec in Ho as [_ Ho], Hn as [_ Hn].
    split; [reflexivity|].
    split; apply validChars_no_slash; assumption.
Qed.

(** ** The order of strings *)

Lemma ascii_compare_refl (c : ascii) : Ascii.compare c c = Eq.
Proof. unfold Ascii.compare. apply N.compare_refl. Qed.

Lemma ascii_compare_lt_trans (a b c : ascii) :
  Ascii.compare a b = Lt -> Ascii.compare b c = Lt -> Ascii.compare a c = Lt.
Proof.
  unfold Ascii.compare. rewrite !N.compare_lt_iff. apply N.lt_trans.
Qed.

Lemma string_compare_refl (s : string) : String.compare s s = Eq.
Proof.
  induction s as [|c s IH]; simpl; [reflexivity|].
  rewrite ascii_compare_refl. exact IH.
Qed.

Lemma string_compare_Eq (s t : string) : String.compare s t = Eq <-> s = t.
Proof.
  split; [apply String.compare_eq_iff | intros ->; apply string_compare_refl].
Qed.

Lemma string_compare_lt_trans (s t u : string) :
  String.compare s t = Lt -> String.compare t u = Lt -> String.compare s u = Lt.
Proof.
  revert t u. induction s as [|a s IH]; intros [|b t] [|c u]; simpl;
    try discriminate; try reflexivity.
  destruct (Ascii.compare a b) eqn:Hab; try discriminate;
    destruct (Ascii.compare b c) eqn:Hbc; try discriminate.
  - apply Ascii.compare_eq_iff in Hab as ->. rewrite Hbc. apply IH.
  - apply Ascii.compare_eq_iff in Hab as ->. rewrite Hbc. reflexivity.
  - apply Ascii.compare_eq_iff in Hbc as <-. rewrite Hab. reflexivity.
  - rewrite (ascii_compare_lt_trans _ _ _ Hab Hbc). reflexivity.
Qed.

Lemma string_compare_le_trans (s t u : string) :
  String.compare s t <> Gt -> String.compare t u <> Gt -> String.compare s u <> Gt.
Proof.
  destruct (String.compare s t) eqn:Hst; [| |congruence];
    destruct (String.compare t u) eqn:Htu; try congruence; intros _ _.
  - apply string_compare_Eq in Hst as ->. congruence.
  - apply string_compare_Eq in Hst as ->. congruence.
  - apply string_compare_Eq in Htu as <-. congruence.
  - rewrite (string_compare_lt_trans _ _ _ Hst Htu). discriminate.
Qed.

#[export] Instance owner_then_name_trans : Transitive owner_then_name.
Proof.
  intros x y z [Hxy | [Hxy Hn1]] [Hyz | [Hyz Hn2]].
  - left. eapply string_compare_lt_trans; eassumption.
  - left. rewrite <- Hyz. exact Hxy.
  - left. rewrite Hxy. exact Hyz.
  - right. split; [congruence|]. eapply string_compare_le_trans; eassumption.
Qed.

Lemma owner_then_name_antisym (x y : Repo) :
  owner_then_name x y -> owner_then_name y x -> x = y.
Proof.
  destruct x as [ox nx], y as [oy ny]. unfold owner_then_name. simpl.
  intros [Hxy | [-> Hn1]] [Hyx | [Heq Hn2]].
  - rewrite String.compare_antisym, Hyx in Hxy. discriminate.
  - subst. rewrite string_compare_refl in Hxy. discriminate.
  - rewrite string_compare_refl in Hyx. discriminate.
  - f_equal. rewrite String.compare_antisym in Hn2.
    destruct (String.compare nx ny) eqn:Hc; simpl in *; try congruence.
    apply string_compare_Eq, Hc.
Qed.

(** ** Sorting *)

Section SortByFacts.
Context {A : Type} (iteratees : list (A -> string)).

Abbreviation notGreater := (notGreater iteratees).

Lemma compareMultiple_antisym (cs ds : list string) :
  Lodash.compareMultiple cs ds = CompOpp (Lodash.compareMultiple ds cs).
Proof.
  revert ds. induction cs as [|c cs IH]; intros [|d ds]; simpl; try reflexivity.
  unfold Lodash.compareAscending. rewrite (String.compare_antisym d c).
  destruct (String.compare c d); simpl; auto.
Qed.

Lemma insertSorted_Permutation (x : A) (sorted : list A) :
  Lodash.insertSorted iteratees x sorted ≡ₚ x :: sorted.
Proof.
  induction sorted as [|y rest IH]; simpl; [reflexivity|].
  destruct (Lodash.compareMultiple _ _); try reflexivity.
  rewrite IH. apply Permutation_swap.
Qed.

Lemma baseOrderBy_Permutation (collection : list A) :
  Lodash.baseOrderBy iteratees collection ≡ₚ collection.
Proof.
  induction collection as [|x rest IH]; simpl; [reflexivity|].
  rewrite insertSorted_Permutation, IH. reflexivity.
Qed.

Lemma insertSorted_HdRel (a x : A) (sorted : list A) :
  notGreater a x -> HdRel notGreater a sorted ->
  HdRel notGreater a (Lodash.insertSorted iteratees x sorted).
Proof.
  intros Hax Hhd. destruct sorted as [|y rest]; simpl; [constructor; exact Hax|].
  inversion Hhd; subst.
  destruct (Lodash.compareMultiple _ _); constructor; assumption.
Qed.

Lemma insertSorted_Sorted (x : A) (sorted : list A) :
  Sorted notGreater sorted -> Sorted notGreater (Lodash.insertSorted iteratees x sorted).
Proof.
  induction sorted as [|y rest IH]; simpl; intros Hs.
  - repeat constructor.
  - inversion Hs as [|? ? Hrest Hhd]; subst.
    destruct (Lodash.compareMultiple (Lodash.criteria iteratees x) _) eqn:Hc.
    + constructor; [exact Hs|]. constructor. unfold notGreater. congruence.
    + constructor; [exact Hs|]. constructor. unfold notGreater. congruence.
    + constructor; [apply IH, Hrest|].
      apply insertSorted_HdRel; [|exact Hhd].
      unfold notGreater. rewrite compareMultiple_antisym, Hc. discriminate.
Qed.

Lemma baseOrderBy_Sorted (collection : list A) :
  Sorted notGreater (Lodash.baseOrderBy iteratees collection).
Proof.
  induction collection as [|x rest IH]; simpl; [constructor|].
  apply insertSorted_Sorted, IH.
Qed.
End SortByFacts.

Lemma compareMultiple_owner_name (x y : Repo) :
  Lodash.compareMultiple (Lodash.criteria [owner; name] x) (Lodash.criteria [owner; name] y) <> Gt
  <-> owner_then_name x y.
Proof.
  unfold owner_then_name, Lodash.criteria, Lodash.compareAscending. simpl.
  unfold Lodash.compareAscending.
  destruct (String.compare (owner x) (owner y)) eqn:Ho.
  - apply string_compare_Eq in Ho.
    destruct (String.compare (name x) (name y)); split; intros Hc; try congruence; auto;
      destruct Hc as [Hc | [_ Hc]]; congruence.
  - split; [auto | discriminate].
  - split; [congruence|].
    intros [Hc | [Hc _]]; [discriminate|].
    apply string_compare_Eq in Hc. congruence.
Qed.

Lemma Sorted_weaken {A : Type} (R R' : A -> A -> Prop) (l : list A) :
  (forall x y, R x y -> R' x y) -> Sorted R l -> Sorted R' l.
Proof.
  intros HR. induction 1 as [|x l _ IH Hhd]; constructor; [exact IH|].
  destruct Hhd; constructor. apply HR. assumption.
Qed.

Lemma sortBy_owner_name_Sorted (repos : list Repo) :
  Sorted owner_then_name (Lodash.sortBy repos [owner; name]).
Proof.
  unfold Lodash.sortBy.
  eapply Sorted_weaken; [| apply baseOrderBy_Sorted].
  intros x y Hxy. apply compareMultiple_owner_name, Hxy.
Qed.

Lemma sortBy_owner_name_StronglySorted (repos : list Repo) :
  StronglySorted owner_then_name (Lodash.sortBy repos [owner; name]).
Proof.
  apply Sorted_StronglySorted; [apply owner_then_name_trans | apply sortBy_owner_name_Sorted].
Qed.

Lemma sortBy_Permutation {A : Type} (collection : list A) (iteratees : list (A -> string)) :
  Lodash.sortBy collection iteratees ≡ₚ collection.
Proof. apply baseOrderBy_Permutation. Qed.

Lemma StronglySorted_unique {A : Type} (R : A -> A -> Prop) (l l' : list A) :
  (forall x y, R x y -> R y x -> x = y) ->
  StronglySorted R l -> StronglySorted R l' -> l ≡ₚ l' -> l = l'.
Proof.
  intros Hanti Hl. revert l'.
  induction Hl as [|x l Hl IH Hx]; intros l' Hl' Hp.
  - apply Permutation_nil in Hp. congruence.
  - destruct Hl' as [|y l' Hl' Hy]; [apply Permutation_sym, Permutation_nil in Hp; discriminate|].
    assert (x = y) as <-.
    { assert (Hxin : x ∈ y :: l') by (rewrite <- Hp; left).
      assert (Hyin : y ∈ x :: l) by (rewrite Hp; left).
      apply elem_of_cons in Hxin as [Heq | Hxin]; [exact Heq|].
      apply elem_of_cons in Hyin as [Heq | Hyin]; [congruence|].
      rewrite Forall_forall in Hx, Hy.
      apply Hanti; [apply Hx | apply Hy]; assumption. }
    f_equal. apply IH; [exact Hl'|]. eapply Permutation_cons_inv, Hp.
Qed.

Lemma sortBy_owner_name_Permutation_eq (repos repos' : list Repo) :
  repos ≡ₚ repos' ->
  Lodash.sortBy repos [owner; name] = Lodash.sortBy repos' [owner; name].
Proof.
  intros Hp.
  apply (StronglySorted_unique owner_then_name).
  - apply owner_then_name_antisym.
  - apply sortBy_owner_name_StronglySorted.
  - apply sortBy_owner_name_StronglySorted.
  - rewrite !sortBy_Permutation. exact Hp.
Qed.

(** ** Structural equality *)

Lemma deepEqual_repoToJs (x y : Repo) :
  Lodash.deepEqual (repoToJs x) (repoToJs y) = true <-> x = y.
Proof.
  destruct x as [ox nx], y as [oy ny]. cbn.
  rewrite !andb_true_iff, !String.eqb_eq. split.
  - intros (-> & -> & _). reflexivity.
  - intros [= -> ->]. auto.
Qed.

Lemma deepEqual_repoToJs_JNull (x : Repo) :
  Lodash.deepEqual (repoToJs x) JNull = false.
Proof. reflexivity. Qed.

(** ** Array lookups *)

Lemma find_Some_first {A : Type} (f : A -> bool) (l : list A) (x : A) :
  find f l = Some x <->
  exists before after,
    l = (before ++ x :: after)%list /\ Forall (fun y => f y = false) before /\ f x = true.
Proof.
  induction l as [|a l IH]; simpl.
  - split; [discriminate | intros ([|? ?] & after & Habs & _); discriminate].
  - destruct (f a) eqn:Hfa.
    + split.
      * intros [= ->]. exists [], l. auto.
      * intros ([|b before] & after & Heq & Hb & Hx); simpl in Heq.
        -- congruence.
        -- injection Heq as <- _. apply Forall_cons in Hb as [Hb _]. congruence.
    + rewrite IH. split.
      * intros (before & after & -> & Hb & Hx). exists (a :: before), after. auto.
      * intros ([|b before] & after & Heq & Hb & Hx); simpl in Heq.
        -- injection Heq as -> _. congruence.
        -- injection Heq as <- ->. apply Forall_cons in Hb as [_ Hb]. eauto.
Qed.

Lemma find_None_Forall {A : Type} (f : A -> bool) (l : list A) :
  find f l = None <-> Forall (fun y => f y = false) l.
Proof.
  induction l as [|a l IH]; simpl; [split; auto|].
  rewrite Forall_cons. destruct (f a); [split; [discriminate | intros [? _]; discriminate]|].
  rewrite IH. tauto.
Qed.

Lemma nth_length_pred_app {A : Type} (init : list A) (x d : A) :
  nth (length (init ++ [x]) - 1) (init ++ [x])%list d = x.
Proof.
  rewrite length_app. simpl. replace (length init + 1 - 1) with (length init) by lia.
  rewrite app_nth2 by lia. rewrite Nat.sub_diag. reflexivity.
Qed.

Lemma nth_length_pred_last {A : Type} (l : list A) (d : A) :
  l <> [] -> last l = Some (nth (length l - 1) l d).
Proof.
  intros Hne. destruct (exists_last Hne) as (init & x & ->).
  rewrite nth_length_pred_app. apply last_snoc.
Qed.

(** ** The resolver *)

Ltac unfold_loadStatus := unfold loadStatus, try_catch, bind, await.
Ltac unfold_componentDidMount := unfold componentDidMount.

Section ResolverFacts.
Context {S : Type} `{LocalStore S}.
Variable REPO_REGISTRY_API : string.
Variable fetch : string -> Exc Response.
Variable fromJSON : JsValue -> Exc (list Repo).

Abbreviation loadStatus := (loadStatus REPO_REGISTRY_API fetch fromJSON).
Abbreviation componentDidMount := (componentDidMount REPO_REGISTRY_API fetch fromJSON).
Abbreviation Resolution := (Resolution REPO_REGISTRY_API fetch fromJSON).

Lemma loadStatus_fetch_Throw localStore console e :
  fetch REPO_REGISTRY_API = Throw e ->
  loadStatus localStore console = ((console ++ [LoggedError e])%list, Ok FAILURE).
Proof.
  intros Hf. unfold_loadStatus. rewrite Hf. reflexivity.
Qed.

Lemma loadStatus_not_ok localStore console response :
  fetch REPO_REGISTRY_API = Ok response -> ok response = false ->
  loadStatus localStore console = ((console ++ [LoggedResponse response])%list, Ok FAILURE).
Proof.
  intros Hf Hok. unfold_loadStatus.
  rewrite Hf, Hok. reflexivity.
Qed.

Lemma loadStatus_json_Throw localStore console response e :
  fetch REPO_REGISTRY_API = Ok response -> ok response = true ->
  json response = Throw e ->
  loadStatus localStore console = ((console ++ [LoggedError e])%list, Ok FAILURE).
Proof.
  intros Hf Hok Hj. unfold_loadStatus.
  rewrite Hf, Hok. simpl. rewrite Hj. reflexivity.
Qed.

Lemma loadStatus_fromJSON_Throw localStore console response body e :
  fetch REPO_REGISTRY_API = Ok response -> ok response = true ->
  json response = Ok body -> fromJSON body = Throw e ->
  loadStatus localStore console = ((console ++ [LoggedError e])%list, Ok FAILURE).
Proof.
  intros Hf Hok Hj Hd. unfold_loadStatus.
  rewrite Hf, Hok. simpl. rewrite Hj, Hd. reflexivity.
Qed.

Lemma loadStatus_NO_REPOS localStore console response body :
  fetch REPO_REGISTRY_API = Ok response -> ok response = true ->
  json response = Ok body -> fromJSON body = Ok [] ->
  loadStatus localStore console = (console, Ok NO_REPOS).
Proof.
  intros Hf Hok Hj Hd. unfold_loadStatus.
  rewrite Hf, Hok. simpl. rewrite Hj, Hd. reflexivity.
Qed.

Lemma loadStatus_get_Throw localStore console response body first rest e :
  fetch REPO_REGISTRY_API = Ok response -> ok response = true ->
  json response = Ok body -> fromJSON body = Ok (first :: rest) ->
  get localStore REPO_KEY JNull = Throw e ->
  loadStatus localStore console = ((console ++ [LoggedError e])%list, Ok FAILURE).
Proof.
  intros Hf Hok Hj Hd Hg. unfold_loadStatus.
  rewrite Hf, Hok. simpl. rewrite Hj, Hd, Hg. reflexivity.
Qed.

Lemma loadStatus_resolved localStore console response body first rest localStoreRepo :
  fetch REPO_REGISTRY_API = Ok response -> ok response = true ->
  json response = Ok body -> fromJSON body = Ok (first :: rest) ->
  get localStore REPO_KEY JNull = Ok localStoreRepo ->
  loadStatus localStore console = (console, Ok (resolved (first :: rest) first localStoreRepo)).
Proof.
  intros Hf Hok Hj Hd Hg. unfold_loadStatus.
  rewrite Hf, Hok. simpl. rewrite Hj, Hd, Hg. reflexivity.
Qed.

Lemma resolved_first_irrelevant availableRepos first first' localStoreRepo :
  availableRepos <> [] ->
  resolved availableRepos first localStoreRepo = resolved availableRepos first' localStoreRepo.
Proof.
  intros Hne. unfold resolved. do 2 f_equal.
  pose proof (nth_length_pred_last availableRepos first Hne) as H1.
  pose proof (nth_length_pred_last availableRepos first' Hne) as H2.
  congruence.
Qed.

Lemma loadStatus_Resolution localStore console :
  exists console' status,
    loadStatus localStore console = (console', Ok status)
    /\ Resolution localStore console console' status.
Proof.
  destruct (fetch REPO_REGISTRY_API) as [response|e] eqn:Hf.
  2: { eexists _, _. split; [apply loadStatus_fetch_Throw, Hf | econstructor 1; eauto]. }
  destruct (ok response) eqn:Hok.
  2: { eexists _, _. split; [eapply loadStatus_not_ok; eauto | econstructor 2; eauto]. }
  destruct (json response) as [body|e] eqn:Hj.
  2: { eexists _, _. split; [eapply loadStatus_json_Throw; eauto | econstructor 3; eauto]. }
  destruct (fromJSON body) as [[|first rest]|e] eqn:Hd.
  3: { eexists _, _. split; [eapply loadStatus_fromJSON_Throw; eauto | econstructor 4; eauto]. }
  1: { eexists _, _. split; [eapply loadStatus_NO_REPOS; eauto | econstructor 5; eauto]. }
  destruct (get localStore REPO_KEY JNull) as [localStoreRepo|e] eqn:Hg.
  - eexists _, _. split; [eapply loadStatus_resolved; eauto | econstructor 7; eauto].
  - eexists _, _. split; [eapply loadStatus_get_Throw; eauto | econstructor 6; eauto].
Qed.

Lemma resolved_selected_elem availableRepos first localStoreRepo :
  availableRepos <> [] ->
  match resolved availableRepos first localStoreRepo with
  | VALID _ selectedRepo => selectedRepo ∈ availableRepos
  | _ => False
  end.
Proof.
  intros Hne. simpl.
  destruct (find _ availableRepos) as [x|] eqn:Hfind; simpl.
  - apply find_Some_first in Hfind as (before & after & -> & _ & _).
    apply elem_of_app. right. left.
  - destruct (exists_last Hne) as (init & x & ->).
    rewrite nth_length_pred_app. apply elem_of_app. right. left.
Qed.

Lemma Resolution_selected_is_available localStore console console' status :
  Resolution localStore console console' status -> selected_is_available status.
Proof.
  destruct 1; simpl; try exact I.
  pose proof (resolved_selected_elem (first :: rest) first localStoreRepo) as Hin.
  simpl in Hin. rewrite (sortBy_Permutation (first :: rest) [owner; name]).
  apply Hin. discriminate.
Qed.

(** C1.  Fallback: when the fetch succeeds, the decoded list is not
    empty and the store holds no preference ([get] hands back the
    default [null]) or a value no element of the list is deeply equal
    to, the status is [VALID] and its [selectedRepo] is the last
    element of the decoded list as decoded, before sorting. *)
Theorem loadStatus_fallback_last
    localStore console response body init lastRepo localStoreRepo :
  fetch REPO_REGISTRY_API = Ok response -> ok response = true ->
  json response = Ok body -> fromJSON body = Ok (init ++ [lastRepo])%list ->
  get localStore REPO_KEY JNull = Ok localStoreRepo ->
  (localStoreRepo = JNull
   \/ forall x, x ∈ (init ++ [lastRepo])%list ->
                Lodash.deepEqual (repoToJs x) localStoreRepo = false) ->
  loadStatus localStore console =
    (console, Ok (VALID (Lodash.sortBy (init ++ [lastRepo])%list [owner; name]) lastRepo)).
Proof.
  intros Hf Hok Hj Hd Hg Hpref.
  destruct (init ++ [lastRepo])%list as [|first rest] eqn:El;
    [destruct init; discriminate|].
  rewrite (loadStatus_resolved _ _ _ _ _ _ _ Hf Hok Hj Hd Hg).
  unfold resolved. do 3 f_equal.
  assert (Hnone : find (fun x => Lodash.deepEqual (repoToJs x) localStoreRepo) (first :: rest)
                  = None).
  { apply find_None_Forall, Forall_forall. intros x Hx.
    destruct Hpref as [-> | Hpref]; [apply deepEqual_repoToJs_JNull | apply Hpref, Hx]. }
  rewrite Hnone, <- El. simpl. apply nth_length_pred_app.
Qed.

(** C2.  Tie-break: when the fetch succeeds and the stored preference
    is deeply equal to some element of the registry, then for every
    permutation of the registry that the decoder may hand back the
    status is [VALID] and its [selectedRepo] is the first element of
    the decoded list, in the order decoded, that is deeply equal to
    the preference; it is the preferred repository itself when the
    preference is a repository. *)
Theorem loadStatus_selects_first_match
    localStore console response body registry availableRepos localStoreRepo :
  fetch REPO_REGISTRY_API = Ok response -> ok response = true ->
  json response = Ok body -> fromJSON body = Ok availableRepos ->
  availableRepos ≡ₚ registry ->
  get localStore REPO_KEY JNull = Ok localStoreRepo ->
  (exists x, x ∈ registry /\ Lodash.deepEqual (repoToJs x) localStoreRepo = true) ->
  exists before selectedRepo after,
    availableRepos = (before ++ selectedRepo :: after)%list
    /\ Forall (fun y => Lodash.deepEqual (repoToJs y) localStoreRepo = false) before
    /\ Lodash.deepEqual (repoToJs selectedRepo) localStoreRepo = true
    /\ (forall preferred, localStoreRepo = repoToJs preferred -> selectedRepo = preferred)
    /\ loadStatus localStore console =
         (console, Ok (VALID (Lodash.sortBy availableRepos [owner; name]) selectedRepo)).
Proof.
  intros Hf Hok Hj Hd Hperm Hg (x & Hx & Heq).
  rewrite <- Hperm in Hx.
  destruct (find (fun y => Lodash.deepEqual (repoToJs y) localStoreRepo) availableRepos)
    as [selectedRepo|] eqn:Hfind.
  2: { apply find_None_Forall in Hfind. rewrite Forall_forall in Hfind.
       rewrite (Hfind x Hx) in Heq. discriminate. }
  pose proof Hfind as (before & after & Hl & Hbefore & Hsel)%find_Some_first.
  exists before, selectedRepo, after. repeat split; try assumption.
  - intros preferred ->. apply deepEqual_repoToJs, Hsel.
  - destruct availableRepos as [|first rest]; [inversion Hx|].
    rewrite (loadStatus_resolved _ _ _ _ _ _ _ Hf Hok Hj Hd Hg).
    unfold resolved. rewrite Hfind. reflexivity.
Qed.

(** C10.  Whatever value the store hands back for the preference key
    ([null], a value that is no repository, a repository that is not
    in the registry), a successful fetch of a non-empty list resolves
    to [VALID] with nothing printed: the value is only compared, the
    selection is an element of the decoded list, and it is the last
    one when the value is deeply equal to none. *)
Theorem loadStatus_any_stored_value
    localStore console response body availableRepos stored :
  fetch REPO_REGISTRY_API = Ok response -> ok response = true ->
  json response = Ok body -> fromJSON body = Ok availableRepos ->
  availableRepos <> [] ->
  get localStore REPO_KEY JNull = Ok stored ->
  exists selectedRepo,
    loadStatus localStore console =
      (console, Ok (VALID (Lodash.sortBy availableRepos [owner; name]) selectedRepo))
    /\ selectedRepo ∈ availableRepos
    /\ ((forall x, x ∈ availableRepos -> Lodash.deepEqual (repoToJs x) stored = false) ->
        last availableRepos = Some selectedRepo).
Proof.
  intros Hf Hok Hj Hd Hne Hg.
  destruct availableRepos as [|first rest]; [contradiction|].
  rewrite (loadStatus_resolved _ _ _ _ _ _ _ Hf Hok Hj Hd Hg).
  unfold resolved. eexists. split; [reflexivity|]. split.
  - apply (resolved_selected_elem (first :: rest) first stored Hne).
  - intros Hnone.
    assert (Hfind : find (fun x => Lodash.deepEqual (repoToJs x) stored) (first :: rest)
                    = None).
    { apply find_None_Forall, Forall_forall, Hnone. }
    rewrite Hfind. unfold NullUtil.orElse. apply nth_length_pred_last, Hne.
Qed.

(** C5.  [loadStatus] always ends in a status, never in an exception:
    a rejected fetch, a response that is not [ok], a body that is not
    JSON, a decoder that throws and a store whose read throws all end
    in [FAILURE]. *)
Theorem loadStatus_never_throws localStore console :
  exists console' status,
    loadStatus localStore console = (console', Ok status)
    /\ (forall e, fetch REPO_REGISTRY_API = Throw e -> status = FAILURE)
    /\ (forall response,
          fetch REPO_REGISTRY_API = Ok response -> ok response = false ->
          status = FAILURE)
    /\ (forall response e,
          fetch REPO_REGISTRY_API = Ok response -> ok response = true ->
          json response = Throw e ->
          status = FAILURE)
    /\ (forall response body e,
          fetch REPO_REGISTRY_API = Ok response -> ok response = true ->
          json response = Ok body -> fromJSON body = Throw e ->
          status = FAILURE)
    /\ (forall response body availableRepos e,
          fetch REPO_REGISTRY_API = Ok response -> ok response = true ->
          json response = Ok body -> fromJSON body = Ok availableRepos ->
          availableRepos <> [] ->
          get localStore REPO_KEY JNull = Throw e ->
          status = FAILURE).
Proof.
  destruct (loadStatus_Resolution localStore console) as (console' & status & Hl & _).
  exists console', status. split; [exact Hl|].
  repeat split.
  - intros e Hf. rewrite (loadStatus_fetch_Throw _ _ _ Hf) in Hl. congruence.
  - intros response Hf Hok. rewrite (loadStatus_not_ok _ _ _ Hf Hok) in Hl. congruence.
  - intros response e Hf Hok Hj.
    rewrite (loadStatus_json_Throw _ _ _ _ Hf Hok Hj) in Hl. congruence.
  - intros response body e Hf Hok Hj Hd.
    rewrite (loadStatus_fromJSON_Throw _ _ _ _ _ Hf Hok Hj Hd) in Hl. congruence.
  - intros response body [|first rest] e Hf Hok Hj Hd Hne Hg; [contradiction|].
    rewrite (loadStatus_get_Throw _ _ _ _ _ _ _ Hf Hok Hj Hd Hg) in Hl. congruence.
Qed.

(** Whatever path is taken, a [VALID] status holds the sorted decoded
    list. *)
Lemma Resolution_VALID_sorted localStore console console' sortedRepos selectedRepo :
  Resolution localStore console console' (VALID sortedRepos selectedRepo) ->
  StronglySorted owner_then_name sortedRepos.
Proof.
  intros Hr. remember (VALID sortedRepos selectedRepo) as status eqn:E.
  destruct Hr; try discriminate E.
  unfold resolved in E. injection E as <- _.
  apply (sortBy_owner_name_StronglySorted (first :: rest)).
Qed.

(** C6.  For every permutation of the registry that the decoder hands
    back, the [availableRepos] of the [VALID] status are ascending by
    owner and, for equal owners, by name: they are the registry
    sorted, the same list for every permutation. *)
Theorem loadStatus_availableRepos_sorted
    localStore console response body registry availableRepos stored :
  fetch REPO_REGISTRY_API = Ok response -> ok response = true ->
  json response = Ok body -> fromJSON body = Ok availableRepos ->
  availableRepos ≡ₚ registry ->
  availableRepos <> [] ->
  get localStore REPO_KEY JNull = Ok stored ->
  exists sortedRepos selectedRepo,
    loadStatus localStore console = (console, Ok (VALID sortedRepos selectedRepo))
    /\ StronglySorted owner_then_name sortedRepos
    /\ sortedRepos ≡ₚ registry
    /\ sortedRepos = Lodash.sortBy registry [owner; name].
Proof.
  intros Hf Hok Hj Hd Hperm Hne Hg.
  destruct availableRepos as [|first rest]; [contradiction|].
  rewrite (loadStatus_resolved _ _ _ _ _ _ _ Hf Hok Hj Hd Hg).
  unfold resolved. eexists _, _. split; [reflexivity|].
  split; [apply sortBy_owner_name_StronglySorted|].
  split; [rewrite sortBy_Permutation; exact Hperm|].
  apply sortBy_owner_name_Permutation_eq, Hperm.
Qed.

(** C4, as the code has it.  Every status [loadStatus] ends in has
    its [selectedRepo] among its [availableRepos]; a user-driven
    selection of [repo] in a [VALID] status keeps [availableRepos],
    makes [repo] the [selectedRepo] without looking it up, and so
    yields a status with the selection among the available
    repositories exactly when [repo] is one of them. *)
Theorem selected_is_available_resolved_and_selected :
  (forall localStore console,
      exists console' status,
        loadStatus localStore console = (console', Ok status)
        /\ selected_is_available status)
  /\ (forall repo (this : Component S) availableRepos selectedRepo,
        state_status this = VALID availableRepos selectedRepo ->
        state_status (onUserSelect repo this) = VALID availableRepos repo
        /\ (selected_is_available (state_status (onUserSelect repo this))
            <-> repo ∈ availableRepos)).
Proof.
  split.
  - intros localStore console.
    destruct (loadStatus_Resolution localStore console) as (console' & status & Hl & Hr).
    exists console', status. split; [exact Hl|].
    eapply Resolution_selected_is_available, Hr.
  - intros repo this availableRepos selectedRepo Hs.
    unfold onUserSelect, onChange. rewrite Hs. simpl. split; reflexivity.
Qed.

(** C9.  The host's callback after mounting and on selections: when
    the resolution ends, [componentDidMount] stores the status and
    calls [props.onChange] once, with the resolved [selectedRepo], if
    the status is [VALID], and not at all otherwise; every user-driven
    selection calls it with the chosen repository, whatever the
    current status. *)
Theorem props_onChange_calls_spec :
  (forall (this : Component S) console,
      exists console' status,
        loadStatus (props_localStore this) console = (console', Ok status)
        /\ componentDidMount this console =
             ({| state_status := status;
                 props_localStore := props_localStore this;
                 props_onChange_calls :=
                   (props_onChange_calls this ++
                      match status with
                      | VALID _ selectedRepo => [selectedRepo]
                      | _ => []
                      end)%list |}, console'))
  /\ (forall repo (this : Component S),
        props_onChange_calls (onUserSelect repo this)
        = (props_onChange_calls this ++ [repo])%list).
Proof.
  split.
  - intros this console.
    destruct (loadStatus_Resolution (props_localStore this) console)
      as (console' & status & Hl & _).
    exists console', status. split; [exact Hl|].
    unfold_componentDidMount. rewrite Hl.
    destruct status; simpl; unfold setState; simpl; rewrite ?app_nil_r; reflexivity.
  - intros repo this. unfold onUserSelect, onChange.
    destruct (state_status this); reflexivity.
Qed.

End ResolverFacts.

(** ** The write-through of a selection *)

(** C3, as the code has it.  A user-driven selection of [repo] writes
    [repo] to the store under the selected-repository key whatever the
    current status is, [VALID] or not. *)
Theorem onUserSelect_writes_store {S : Type} `{LocalStore S} (repo : Repo) (this : Component S) :
  props_localStore (onUserSelect repo this)
  = set (props_localStore this) REPO_KEY (repoToJs repo).
Proof.
  unfold onUserSelect, onChange. destruct (state_status this); reflexivity.
Qed.

Lemma onUserSelect_memory_lookup (repo : Repo) (this : Component (gmap string JsValue)) :
  props_localStore (onUserSelect repo this) !! REPO_KEY = Some (repoToJs repo).
Proof.
  unfold onUserSelect, onChange. destruct (state_status this); apply lookup_insert_eq.
Qed.

(** The selector only offers what is available: a selection made
    through the [<select>] of a [VALID] status keeps the selection
    among the available repositories. *)
Lemma select_onChange_available {S : Type} `{LocalStore S}
    (this this' : Component S) (value : string) :
  value ∈ options (state_status this) ->
  select_onChange value this = Ok this' ->
  selected_is_available (state_status this').
Proof.
  unfold options, select_onChange.
  destruct (state_status this) as [|availableRepos selectedRepo| |] eqn:Hs;
    try (intros Hin; inversion Hin; fail).
  intros (r & -> & Hr)%list_elem_of_fmap Hsel.
  apply exc_bind_Ok in Hsel as (repo & Hparse & Hok). injection Hok as <-.
  unfold onUserSelect, onChange. rewrite Hs. simpl.
  enough (r = repo) by congruence.
  apply repoStringToRepo_Ok in Hparse as (Heq & Ho & Hn).
  apply matchValidRe_spec in Ho as [_ Ho], Hn as [_ Hn].
  unfold repoString in Heq.
  assert (Hr0 : occurrences "/" (owner r) = 0).
  { pose proof (f_equal (occurrences "/") Heq) as Hocc.
    rewrite !occurrences_app in Hocc. simpl in Hocc.
    rewrite (validChars_no_slash _ Ho), (validChars_no_slash _ Hn) in Hocc. lia. }
  apply app_sep_inj in Heq as [Ho' Hn'];
    [| exact Hr0 | apply validChars_no_slash, Ho].
  destruct r, repo. simpl in *. congruence.
Qed.

(** ** The fakes at work *)

Lemma registry_permuted :
  [repo_bm; repo_aa; repo_az] ≡ₚ [repo_az; repo_aa; repo_bm].
Proof.
  change [repo_az; repo_aa; repo_bm] with (reverse [repo_bm; repo_aa; repo_az]).
  symmetry. apply reverse_Permutation.
Qed.

Lemma loadStatus_fallback_last_witness :
  get (∅ : gmap string JsValue) REPO_KEY JNull = Ok JNull
  /\ fakeLoadStatus (Ok (registryBody [repo_bm; repo_aa; repo_az])) ∅ []
     = ([], Ok (VALID [repo_aa; repo_az; repo_bm] repo_az)).
Proof.
  split; [reflexivity|].
  apply (loadStatus_fallback_last fakeUrl _ fakeFromJSON ∅ []
           (registryBody [repo_bm; repo_aa; repo_az])
           (JArr (map repoToJs [repo_bm; repo_aa; repo_az]))
           [repo_bm; repo_aa] repo_az JNull);
    try reflexivity.
  left. reflexivity.
Defined.

Lemma loadStatus_selects_first_match_witness :
  exists before selectedRepo after,
    [repo_bm; repo_aa; repo_az] = (before ++ selectedRepo :: after)%list
    /\ Forall (fun y => Lodash.deepEqual (repoToJs y) (repoToJs repo_aa) = false) before
    /\ Lodash.deepEqual (repoToJs selectedRepo) (repoToJs repo_aa) = true
    /\ (forall preferred, repoToJs repo_aa = repoToJs preferred -> selectedRepo = preferred)
    /\ fakeLoadStatus (Ok (registryBody [repo_bm; repo_aa; repo_az]))
         (storeWith (repoToJs repo_aa)) []
       = ([], Ok (VALID (Lodash.sortBy [repo_bm; repo_aa; repo_az] [owner; name]) selectedRepo)).
Proof.
  apply (loadStatus_selects_first_match fakeUrl _ fakeFromJSON
           (storeWith (repoToJs repo_aa)) []
           (registryBody [repo_bm; repo_aa; repo_az])
           (JArr (map repoToJs [repo_bm; repo_aa; repo_az]))
           [repo_az; repo_aa; repo_bm]);
    try reflexivity.
  - exact registry_permuted.
  - exists repo_aa. split; [|reflexivity].
    apply elem_of_cons. right. apply elem_of_cons. left. reflexivity.
Defined.

Lemma loadStatus_any_stored_value_witness :
  exists selectedRepo,
    fakeLoadStatus (Ok (registryBody [repo_bm; repo_aa; repo_az]))
      (storeWith (JArr [JBool true; JStr "a/a"])) []
    = ([], Ok (VALID (Lodash.sortBy [repo_bm; repo_aa; repo_az] [owner; name]) selectedRepo))
    /\ selectedRepo ∈ [repo_bm; repo_aa; repo_az]
    /\ ((forall x, x ∈ [repo_bm; repo_aa; repo_az] ->
                   Lodash.deepEqual (repoToJs x) (JArr [JBool true; JStr "a/a"]) = false) ->
        last [repo_bm; repo_aa; repo_az] = Some selectedRepo).
Proof.
  apply (loadStatus_any_stored_value fakeUrl _ fakeFromJSON
           (storeWith (JArr [JBool true; JStr "a/a"])) []
           (registryBody [repo_bm; repo_aa; repo_az])
           (JArr (map repoToJs [repo_bm; repo_aa; repo_az])));
    try reflexivity.
  discriminate.
Defined.

Lemma loadStatus_availableRepos_sorted_witness :
  exists sortedRepos selectedRepo,
    fakeLoadStatus (Ok (registryBody [repo_bm; repo_aa; repo_az])) ∅ []
    = ([], Ok (VALID sortedRepos selectedRepo))
    /\ StronglySorted owner_then_name sortedRepos
    /\ sortedRepos ≡ₚ [repo_az; repo_aa; repo_bm]
    /\ sortedRepos = Lodash.sortBy [repo_az; repo_aa; repo_bm] [owner; name].
Proof.
  apply (loadStatus_availableRepos_sorted fakeUrl _ fakeFromJSON ∅ []
           (registryBody [repo_bm; repo_aa; repo_az])
           (JArr (map repoToJs [repo_bm; repo_aa; repo_az]))
           [repo_az; repo_aa; repo_bm] [repo_bm; repo_aa; repo_az] JNull);
    try reflexivity.
  - exact registry_permuted.
  - discriminate.
Defined.

(** C3 as stated fails: while the status is [LOADING] a selection
    changes the store. *)
Lemma onUserSelect_writes_while_LOADING :
  let this := constructor (∅ : gmap string JsValue) in
  state_status this = LOADING
  /\ props_localStore (onUserSelect repo_aa this) <> props_localStore this.
Proof.
  split; [reflexivity|].
  intros Heq. apply (f_equal (fun store => store !! REPO_KEY)) in Heq.
  rewrite onUserSelect_memory_lookup in Heq. discriminate.
Qed.

(** C4 as stated fails: selecting a repository that is not available
    leaves a [VALID] status whose selection is not available. *)
Lemma onUserSelect_selects_unavailable :
  let this :=
    {| state_status := VALID [repo_aa] repo_aa;
       props_localStore := (∅ : gmap string JsValue);
       props_onChange_calls := [] |} in
  selected_is_available (state_status this)
  /\ state_status (onUserSelect repo_bm this) = VALID [repo_aa] repo_bm
  /\ ~ selected_is_available (state_status (onUserSelect repo_bm this)).
Proof.
  split; [left|]. split; [reflexivity|].
  simpl. intros Hin. apply elem_of_cons in Hin as [Heq | Hin]; [discriminate | inversion Hin].
Qed.

(** The registry of the specification's examples, without and with a
    stored preference, empty, and unreachable. *)
Example loadStatus_no_preference :
  fakeLoadStatus (Ok (registryBody [repo_az; repo_aa; repo_bm])) ∅ []
  = ([], Ok (VALID [repo_aa; repo_az; repo_bm] repo_bm)).
Proof. reflexivity. Qed.

Example loadStatus_preference_bm :
  fakeLoadStatus (Ok (registryBody [repo_az; repo_aa; repo_bm])) (storeWith (repoToJs repo_bm)) []
  = ([], Ok (VALID [repo_aa; repo_az; repo_bm] repo_bm)).
Proof. reflexivity. Qed.

Example loadStatus_preference_az :
  fakeLoadStatus (Ok (registryBody [repo_az; repo_aa; repo_bm])) (storeWith (repoToJs repo_az)) []
  = ([], Ok (VALID [repo_aa; repo_az; repo_bm] repo_az)).
Proof. reflexivity. Qed.

Example loadStatus_empty_registry :
  fakeLoadStatus (Ok (registryBody [])) ∅ [] = ([], Ok NO_REPOS).
Proof. reflexivity. Qed.

Example loadStatus_not_ok_response :
  fakeLoadStatus (Ok {| ok := false; json := Ok JNull |}) ∅ []
  = ([LoggedResponse {| ok := false; json := Ok JNull |}], Ok FAILURE).
Proof. reflexivity. Qed.

Example loadStatus_throwing_store :
  loadStatus fakeUrl (fakeFetch (Ok (registryBody [repo_aa]))) fakeFromJSON throwingStore []
  = ([LoggedError (Thrown (JStr REPO_KEY))], Ok FAILURE).
Proof. reflexivity. Qed.

Example repoStringToRepo_examples :
  repoStringToRepo "sourcecred/example-github" = Ok {| owner := "sourcecred"; name := "example-github" |}
  /\ repoStringToRepo "sourcecred" = Throw (InvalidRepoString "sourcecred")
  /\ repoStringToRepo "a/b/c" = Throw (InvalidRepoString "a/b/c")
  /\ repoStringToRepo "/b" = Throw (InvalidRepositoryOwner "")
  /\ repoStringToRepo "a/" = Throw (InvalidRepositoryName "")
  /\ repoStringToRepo "a/b.c" = Throw (InvalidRepositoryName "b.c").
Proof. repeat split. Qed.

(** * Further properties *)

(** ** The codec, error by error *)

Lemma split_two_iff (sep : ascii) (x p0 p1 : string) :
  split sep x = [p0; p1] <->
  x = p0 +:+ String sep p1 /\ occurrences sep p0 = 0 /\ occurrences sep p1 = 0.
Proof.
  split; [apply split_two|].
  intros (-> & H0 & H1). rewrite (split_app_sep _ _ _ H0), (split_no_sep _ _ H1). reflexivity.
Qed.

Lemma repoStringToRepo_not_two (token : string) :
  occurrences "/" token <> 1 ->
  repoStringToRepo token = Throw (InvalidRepoString token).
Proof.
  intros Hocc. unfold repoStringToRepo.
  pose proof (split_length "/" token) as Hlen.
  destruct (split "/" token) as [|p0 [|p1 [|p2 ps]]]; try reflexivity.
  simpl in Hlen. lia.
Qed.

Lemma repoStringToRepo_two (o n : string) :
  occurrences "/" o = 0 -> occurrences "/" n = 0 ->
  repoStringToRepo (o +:+ "/" +:+ n)
  = exc_bind (validateRepo {| owner := o; name := n |})
      (fun _ => Ok {| owner := o; name := n |}).
Proof.
  intros Ho Hn. unfold repoStringToRepo.
  change ("/" +:+ n) with (String "/" n).
  rewrite (split_app_sep _ _ _ Ho), (split_no_sep _ _ Hn). reflexivity.
Qed.

Lemma repoStringToRepo_cases (token : string) :
  (occurrences "/" token <> 1
   /\ repoStringToRepo token = Throw (InvalidRepoString token))
  \/ (exists o n,
        token = o +:+ "/" +:+ n
        /\ occurrences "/" o = 0 /\ occurrences "/" n = 0
        /\ occurrences "/" token = 1
        /\ repoStringToRepo token
           = exc_bind (validateRepo {| owner := o; name := n |})
               (fun _ => Ok {| owner := o; name := n |})).
Proof.
  destruct (Nat.eq_dec (occurrences "/" token) 1) as [Hocc | Hocc].
  - right. pose proof (split_length "/" token) as Hlen. rewrite Hocc in Hlen.
    destruct (split "/" token) as [|p0 [|p1 [|p2 ps]]] eqn:E; try discriminate.
    apply split_two in E as (Heq & H0 & H1).
    exists p0, p1. repeat split; try assumption.
    rewrite Heq at 1. apply repoStringToRepo_two; assumption.
  - left. split; [exact Hocc | apply repoStringToRepo_not_two, Hocc].
Qed.

Lemma validateRepo_bind (o n : string) :
  exc_bind (validateRepo {| owner := o; name := n |})
    (fun _ => Ok {| owner := o; name := n |})
  = if matchValidRe o
    then if matchValidRe n
         then Ok {| owner := o; name := n |}
         else Throw (InvalidRepositoryName n)
    else Throw (InvalidRepositoryOwner o).
Proof.
  unfold validateRepo. simpl.
  destruct (matchValidRe o); simpl; [|reflexivity].
  destruct (matchValidRe n); reflexivity.
Qed.

(** X1.  Which error [repoStringToRepo] throws: the invalid-string
    error, carrying the token, exactly when the token does not hold
    one slash; the invalid-owner error, carrying the text before the
    slash, exactly when that text does not match, whatever follows the
    slash; the invalid-name error, carrying the text after the slash,
    exactly when the owner matches and the name does not; and nothing
    else. *)
Theorem repoStringToRepo_error_kinds (token : string) :
  (forall x,
      repoStringToRepo token = Throw (InvalidRepoString x)
      <-> x = token /\ occurrences "/" token <> 1)
  /\ (forall o,
        repoStringToRepo token = Throw (InvalidRepositoryOwner o)
        <-> exists n,
              token = o +:+ "/" +:+ n
              /\ occurrences "/" o = 0 /\ occurrences "/" n = 0
              /\ matchValidRe o = false)
  /\ (forall n,
        repoStringToRepo token = Throw (InvalidRepositoryName n)
        <-> exists o,
              token = o +:+ "/" +:+ n
              /\ occurrences "/" n = 0
              /\ matchValidRe o = true /\ matchValidRe n = false)
  /\ (forall v, repoStringToRepo token <> Throw (Thrown v)).
Proof.
  destruct (repoStringToRepo_cases token)
    as [[Hocc Hr] | (o & n & Heq & Ho & Hn & Hocc & Hr)];
    rewrite Hr; clear Hr.
  - split; [|split; [|split]].
    + intros x. split; [intros [= <-]; auto | intros [-> _]; reflexivity].
    + intros o. split; [discriminate|].
      intros (n & -> & Ho & Hn & _). exfalso. apply Hocc.
      rewrite !occurrences_app, Ho, Hn. reflexivity.
    + intros n. split; [discriminate|].
      intros (o' & -> & Hn & Ho%matchValidRe_spec & _). exfalso. apply Hocc.
      destruct Ho as [_ Ho]. rewrite !occurrences_app, (validChars_no_slash _ Ho), Hn.
      reflexivity.
    + discriminate.
  - rewrite validateRepo_bind.
    assert (Hinj : forall o' n', token = o' +:+ "/" +:+ n' ->
                                 occurrences "/" o' = 0 -> o' = o /\ n' = n).
    { intros o' n' Heq' Ho'. rewrite Heq in Heq'.
      apply app_sep_inj in Heq' as [-> ->]; auto. }
    split; [|split; [|split]].
    + intros x. split.
      * destruct (matchValidRe o); [destruct (matchValidRe n)|]; discriminate.
      * intros [_ Habs]. contradiction.
    + intros o0. split.
      * destruct (matchValidRe o) eqn:Hm; [destruct (matchValidRe n); discriminate|].
        intros [= <-]. exists n. auto.
      * intros (n' & Heq' & Ho' & _ & Hm).
        destruct (Hinj _ _ Heq' Ho') as [-> ->]. rewrite Hm. reflexivity.
    + intros n0. split.
      * destruct (matchValidRe o) eqn:Hm; [|discriminate].
        destruct (matchValidRe n) eqn:Hm'; [discriminate|].
        intros [= <-]. exists o. auto.
      * intros (o' & Heq' & _ & Hm & Hm').
        assert (Ho' : occurrences "/" o' = 0).
        { apply matchValidRe_spec in Hm as [_ Hm0]. apply validChars_no_slash, Hm0. }
        destruct (Hinj _ _ Heq' Ho') as [-> ->]. rewrite Hm, Hm'. reflexivity.
    + intros v. destruct (matchValidRe o); [destruct (matchValidRe n)|]; discriminate.
Qed.

Lemma repoString_inj_slash_free (r r' : Repo) :
  occurrences "/" (owner r) = 0 ->
  occurrences "/" (owner r') = 0 ->
  repoString r = repoString r' ->
  r = r'.
Proof.
  intros Ho Ho' Heq. unfold repoString in Heq.
  apply app_sep_inj in Heq as [Hoo Hnn]; [| exact Ho | exact Ho'].
  destruct r, r'. simpl in *. congruence.
Qed.

Lemma repoString_parsed (r r' : Repo) :
  repoStringToRepo (repoString r) = Ok r' -> r' = r.
Proof.
  intros (Heq & Ho & Hn)%repoStringToRepo_Ok.
  apply matchValidRe_spec in Ho as [_ Ho], Hn as [_ Hn].
  assert (Hr0 : occurrences "/" (owner r) = 0).
  { pose proof (f_equal (occurrences "/") Heq) as Hocc.
    unfold repoString in Hocc. rewrite !occurrences_app in Hocc. simpl in Hocc.
    rewrite (validChars_no_slash _ Ho), (validChars_no_slash _ Hn) in Hocc. lia. }
  symmetry. apply repoString_inj_slash_free; [exact Hr0 | apply validChars_no_slash, Ho | exact Heq].
Qed.

(** X2.  Parsing the option string of a repository succeeds exactly
    when its owner and name both match the pattern, and then gives the
    repository itself: it never gives another repository, and the
    option of a repository with any other owner or name cannot be
    parsed. *)
Theorem repoStringToRepo_repoString_iff (r r' : Repo) :
  repoStringToRepo (repoString r) = Ok r'
  <-> r' = r /\ matchValidRe (owner r) = true /\ matchValidRe (name r) = true.
Proof.
  split.
  - intros Hp. pose proof (repoString_parsed _ _ Hp) as ->.
    apply repoStringToRepo_Ok in Hp as (_ & Ho & Hn). auto.
  - intros (-> & Ho & Hn). apply repoStringToRepo_Ok. auto.
Qed.

(** X3.  Two repositories whose owners hold no slash have the same
    option string only if they are the same repository. *)
Theorem repoString_inj (r r' : Repo) :
  occurrences "/" (owner r) = 0 ->
  occurrences "/" (owner r') = 0 ->
  repoString r = repoString r' ->
  r = r'.
Proof. apply repoString_inj_slash_free. Qed.

Lemma repoString_inj_witness :
  occurrences "/" (owner repo_az) = 0
  /\ occurrences "/" (owner {| owner := "a"; name := "z" |}) = 0
  /\ repo_az = {| owner := "a"; name := "z" |}.
Proof.
  split; [reflexivity|]. split; [reflexivity|].
  apply (repoString_inj repo_az {| owner := "a"; name := "z" |}); reflexivity.
Defined.

(** With a slash in an owner the option strings can clash. *)
Example repoString_clash :
  repoString {| owner := "a/b"; name := "c" |} = repoString {| owner := "a"; name := "b/c" |}
  /\ {| owner := "a/b"; name := "c" |} <> {| owner := "a"; name := "b/c" |}.
Proof. split; [reflexivity | discriminate]. Qed.

Lemma join_cons (sep : ascii) (piece : string) (pieces : list string) :
  pieces <> [] ->
  join sep (piece :: pieces) = piece +:+ String sep (join sep pieces).
Proof. destruct pieces; [contradiction | reflexivity]. Qed.

(** X4.  The pieces [split] cuts a string into hold no separator,
    number one more than the separators of the string, and give the
    string back when joined with the separator. *)
Theorem split_join (sep : ascii) (x : string) :
  join sep (split sep x) = x
  /\ Forall (fun piece => occurrences sep piece = 0) (split sep x)
  /\ length (split sep x) = Datatypes.S (occurrences sep x).
Proof.
  split; [|split; [|apply split_length]].
  - induction x as [|c x IH]; simpl; [reflexivity|].
    destruct (Ascii.eqb_spec c sep) as [->|Hne].
    + rewrite join_cons by apply split_not_nil. rewrite IH. reflexivity.
    + destruct (split sep x) as [|piece pieces] eqn:E; [destruct (split_not_nil _ _ E)|].
      destruct pieces as [|piece' pieces].
      * simpl in *. congruence.
      * rewrite join_cons by discriminate. rewrite join_cons in IH by discriminate.
        rewrite <- IH. reflexivity.
  - induction x as [|c x IH]; simpl; [repeat constructor|].
    destruct (Ascii.eqb_spec c sep) as [->|Hne].
    + constructor; [reflexivity | exact IH].
    + destruct (split sep x) as [|piece pieces] eqn:E; [destruct (split_not_nil _ _ E)|].
      apply Forall_cons in IH as [Hp Hps].
      constructor; [|exact Hps].
      simpl. apply Ascii.eqb_neq in Hne. rewrite Hne. exact Hp.
Qed.

(** ** The outcomes of the resolver *)

Section ResolverOutcomes.
Context {S : Type} `{LocalStore S}.
Variable REPO_REGISTRY_API : string.
Variable fetch : string -> Exc Response.
Variable fromJSON : JsValue -> Exc (list Repo).

Abbreviation loadStatus := (loadStatus REPO_REGISTRY_API fetch fromJSON).
Abbreviation componentDidMount := (componentDidMount REPO_REGISTRY_API fetch fromJSON).
Abbreviation Resolution := (Resolution REPO_REGISTRY_API fetch fromJSON).

Lemma loadStatus_inv localStore console console' status :
  loadStatus localStore console = (console', Ok status) ->
  Resolution localStore console console' status.
Proof.
  intros Hl.
  destruct (loadStatus_Resolution REPO_REGISTRY_API fetch fromJSON localStore console)
    as (console'' & status' & Hl' & Hr).
  rewrite Hl in Hl'. injection Hl' as -> ->. exact Hr.
Qed.

Lemma resolved_selected availableRepos first stored sortedRepos selectedRepo :
  availableRepos <> [] ->
  resolved availableRepos first stored = VALID sortedRepos selectedRepo <->
  sortedRepos = Lodash.sortBy availableRepos [owner; name]
  /\ (find (fun x => Lodash.deepEqual (repoToJs x) stored) availableRepos = Some selectedRepo
      \/ (find (fun x => Lodash.deepEqual (repoToJs x) stored) availableRepos = None
          /\ last availableRepos = Some selectedRepo)).
Proof.
  intros Hne. unfold resolved.
  pose proof (nth_length_pred_last availableRepos first Hne) as Hlast.
  destruct (find _ availableRepos) as [x|]; simpl; split.
  - intros [= <- <-]. auto.
  - intros [-> [[= ->] | [Habs _]]]; [reflexivity | discriminate].
  - intros [= <- <-]. auto.
  - intros [-> [Habs | [_ Hl]]]; [discriminate|]. congruence.
Qed.

(** X5.  [loadStatus] ends in [NO_REPOS] exactly when the fetch
    succeeds with an [ok] response whose body decodes to the empty
    list; nothing is printed then, and the store plays no part. *)
Theorem loadStatus_NO_REPOS_iff localStore console console' :
  loadStatus localStore console = (console', Ok NO_REPOS)
  <-> console' = console
      /\ exists response body,
           fetch REPO_REGISTRY_API = Ok response /\ ok response = true
           /\ json response = Ok body /\ fromJSON body = Ok [].
Proof.
  split.
  - intros Hr%loadStatus_inv.
    remember NO_REPOS as status eqn:E.
    destruct Hr; try discriminate E.
    split; [reflexivity|]. exists response, body. auto.
  - intros (-> & response & body & Hf & Hok & Hj & Hd).
    eapply loadStatus_NO_REPOS; eassumption.
Qed.

(** X6.  [loadStatus] ends in [VALID] exactly when the fetch succeeds
    with an [ok] response, the body decodes to a list and the store
    hands back a value; the status then holds the decoded list sorted
    and, as selection, the first decoded element deeply equal to the
    stored value or, without one, the last decoded element; nothing is
    printed. *)
Theorem loadStatus_VALID_iff localStore console console' sortedRepos selectedRepo :
  loadStatus localStore console = (console', Ok (VALID sortedRepos selectedRepo))
  <-> console' = console
      /\ exists response body availableRepos stored,
           fetch REPO_REGISTRY_API = Ok response /\ ok response = true
           /\ json response = Ok body /\ fromJSON body = Ok availableRepos
           /\ get localStore REPO_KEY JNull = Ok stored
           /\ sortedRepos = Lodash.sortBy availableRepos [owner; name]
           /\ (find (fun x => Lodash.deepEqual (repoToJs x) stored) availableRepos
               = Some selectedRepo
               \/ (find (fun x => Lodash.deepEqual (repoToJs x) stored) availableRepos = None
                   /\ last availableRepos = Some selectedRepo)).
Proof.
  split.
  - intros Hr%loadStatus_inv.
    remember (VALID sortedRepos selectedRepo) as status eqn:E.
    destruct Hr as [| | | | |
                    |response body first rest stored Hf Hok Hj Hd Hg]; try discriminate E.
    split; [reflexivity|].
    apply resolved_selected in E as [Hs Hsel]; [|discriminate].
    exists response, body, (first :: rest), stored. auto 10.
  - intros (-> & response & body & availableRepos & stored
            & Hf & Hok & Hj & Hd & Hg & Hs & Hsel).
    assert (Hne : availableRepos <> []).
    { intros ->. destruct Hsel as [Habs | [_ Habs]]; discriminate. }
    destruct availableRepos as [|first rest]; [contradiction|].
    rewrite (loadStatus_resolved _ _ _ _ _ _ _ _ _ _ Hf Hok Hj Hd Hg).
    do 2 f_equal. apply resolved_selected; auto.
Qed.

(** X7.  [loadStatus] ends in [FAILURE] exactly when the fetch
    rejects, the response is not [ok], its body is not JSON, the
    decoder throws, or the list is not empty and the read of the store
    throws; one entry is printed then, the response in the second case
    and the exception in the others. *)
Theorem loadStatus_FAILURE_iff localStore console console' :
  loadStatus localStore console = (console', Ok FAILURE)
  <-> exists entry,
        console' = (console ++ [entry])%list
        /\ ((exists e, fetch REPO_REGISTRY_API = Throw e /\ entry = LoggedError e)
            \/ (exists response,
                   fetch REPO_REGISTRY_API = Ok response /\ ok response = false
                   /\ entry = LoggedResponse response)
            \/ (exists response e,
                   fetch REPO_REGISTRY_API = Ok response /\ ok response = true
                   /\ json response = Throw e /\ entry = LoggedError e)
            \/ (exists response body e,
                   fetch REPO_REGISTRY_API = Ok response /\ ok response = true
                   /\ json response = Ok body /\ fromJSON body = Throw e
                   /\ entry = LoggedError e)
            \/ (exists response body availableRepos e,
                   fetch REPO_REGISTRY_API = Ok response /\ ok response = true
                   /\ json response = Ok body /\ fromJSON body = Ok availableRepos
                   /\ availableRepos <> []
                   /\ get localStore REPO_KEY JNull = Throw e
                   /\ entry = LoggedError e)).
Proof.
  split.
  - intros Hr%loadStatus_inv.
    remember FAILURE as status eqn:E.
    destruct Hr; try discriminate E; eexists; (split; [reflexivity|]).
    + left. exists e. auto.
    + right; left. exists response. auto.
    + right; right; left. exists response, e. auto.
    + right; right; right; left. exists response, body, e. auto 10.
    + right; right; right; right.
      exists response, body, (first :: rest), e. repeat split; auto.
  - intros (entry & -> & [(e & Hf & ->)
                         | [(response & Hf & Hok & ->)
                           | [(response & e & Hf & Hok & Hj & ->)
                             | [(response & body & e & Hf & Hok & Hj & Hd & ->)
                               | (response & body & [|first rest] & e
                                  & Hf & Hok & Hj & Hd & Hne & Hg & ->)]]]]).
    + apply loadStatus_fetch_Throw, Hf.
    + apply loadStatus_not_ok; assumption.
    + eapply loadStatus_json_Throw; eassumption.
    + eapply loadStatus_fromJSON_Throw; eassumption.
    + contradiction.
    + eapply loadStatus_get_Throw; eassumption.
Qed.

(** X8.  A resolution never ends in [LOADING]; it prints one entry
    when it ends in [FAILURE] and nothing otherwise, and never drops
    what the console held. *)
Theorem loadStatus_console localStore console :
  exists console' status,
    loadStatus localStore console = (console', Ok status)
    /\ status <> LOADING
    /\ (status = FAILURE -> exists entry, console' = (console ++ [entry])%list)
    /\ (status <> FAILURE -> console' = console).
Proof.
  destruct (loadStatus_Resolution REPO_REGISTRY_API fetch fromJSON localStore console)
    as (console' & status & Hl & Hr).
  exists console', status. split; [exact Hl|].
  destruct Hr; (split; [discriminate|]);
    (split;
     [ intros Hs; try discriminate Hs; eexists; reflexivity
     | intros Hs; try reflexivity; exfalso; apply Hs; reflexivity ]).
Qed.

End ResolverOutcomes.

(** ** The store between sessions *)

Lemma loadStatus_get_ext {S S' : Type} `{LocalStore S} `{LocalStore S'}
    (REPO_REGISTRY_API : string) (fetch : string -> Exc Response)
    (fromJSON : JsValue -> Exc (list Repo))
    (localStore : S) (localStore' : S') (console : list Logged) :
  get localStore REPO_KEY JNull = get localStore' REPO_KEY JNull ->
  loadStatus REPO_REGISTRY_API fetch fromJSON localStore console
  = loadStatus REPO_REGISTRY_API fetch fromJSON localStore' console.
Proof.
  intros Heq. unfold_loadStatus.
  destruct (fetch REPO_REGISTRY_API) as [response|]; [|reflexivity].
  destruct (ok response); simpl; [|reflexivity].
  destruct (json response) as [body|]; [|reflexivity].
  destruct (fromJSON body) as [[|first rest]|]; try reflexivity.
  rewrite Heq. reflexivity.
Qed.

(** X9.  The resolver reads the store under the selected-repository
    key only: writing or deleting any other key of an in-memory store
    changes nothing of what [loadStatus] returns and prints. *)
Theorem loadStatus_other_keys
    (REPO_REGISTRY_API : string) (fetch : string -> Exc Response)
    (fromJSON : JsValue -> Exc (list Repo))
    (store : gmap string JsValue) (key : string) (data : JsValue) (console : list Logged) :
  key <> REPO_KEY ->
  loadStatus REPO_REGISTRY_API fetch fromJSON (set store key data) console
  = loadStatus REPO_REGISTRY_API fetch fromJSON store console
  /\ loadStatus REPO_REGISTRY_API fetch fromJSON (delete key store) console
     = loadStatus REPO_REGISTRY_API fetch fromJSON store console.
Proof.
  intros Hne. split; apply loadStatus_get_ext; simpl.
  - rewrite lookup_insert_ne by exact Hne. reflexivity.
  - rewrite lookup_delete_ne by exact Hne. reflexivity.
Qed.

Lemma loadStatus_other_keys_witness :
  "theme" <> REPO_KEY
  /\ fakeLoadStatus (Ok (registryBody [repo_bm; repo_aa; repo_az]))
       (set (storeWith (repoToJs repo_aa)) "theme" (JStr "dark")) []
     = fakeLoadStatus (Ok (registryBody [repo_bm; repo_aa; repo_az]))
         (storeWith (repoToJs repo_aa)) []
  /\ fakeLoadStatus (Ok (registryBody [repo_bm; repo_aa; repo_az]))
       (delete "theme" (storeWith (repoToJs repo_aa))) []
     = fakeLoadStatus (Ok (registryBody [repo_bm; repo_aa; repo_az]))
         (storeWith (repoToJs repo_aa)) [].
Proof.
  split; [discriminate|].
  apply (loadStatus_other_keys fakeUrl
           (fakeFetch (Ok (registryBody [repo_bm; repo_aa; repo_az]))) fakeFromJSON
           (storeWith (repoToJs repo_aa)) "theme" (JStr "dark") []).
  discriminate.
Defined.

Lemma onUserSelect_store {S : Type} `{LocalStore S} (repo : Repo) (this : Component S) :
  props_localStore (onUserSelect repo this)
  = set (props_localStore this) REPO_KEY (repoToJs repo).
Proof.
  unfold onUserSelect, onChange. destruct (state_status this); reflexivity.
Qed.

Lemma find_deepEqual_repo (repo : Repo) (availableRepos : list Repo) :
  repo ∈ availableRepos ->
  find (fun x => Lodash.deepEqual (repoToJs x) (repoToJs repo)) availableRepos = Some repo.
Proof.
  intros Hin.
  destruct (find _ availableRepos) as [x|] eqn:Hfind.
  - apply find_Some_first in Hfind as (_ & _ & _ & _ & Hx).
    apply deepEqual_repoToJs in Hx as ->. reflexivity.
  - apply find_None_Forall in Hfind. rewrite Forall_forall in Hfind.
    specialize (Hfind repo Hin).
    assert (Hrefl : Lodash.deepEqual (repoToJs repo) (repoToJs repo) = true)
      by (apply deepEqual_repoToJs; reflexivity).
    congruence.
Qed.

(** X10.  A selection survives a reload: over a store that hands back
    what was last written under the selected-repository key, a
    component mounted on the store a selection of [repo] has left
    resolves, when the registry still lists [repo], to [VALID] with
    [repo] selected, and tells the host so. *)
Theorem componentDidMount_after_onUserSelect {S : Type} `{LocalStore S}
    (REPO_REGISTRY_API : string) (fetch : string -> Exc Response)
    (fromJSON : JsValue -> Exc (list Repo))
    (this : Component S) (repo : Repo) (response : Response) (body : JsValue)
    (availableRepos : list Repo) (console : list Logged) :
  get (set (props_localStore this) REPO_KEY (repoToJs repo)) REPO_KEY JNull
  = Ok (repoToJs repo) ->
  fetch REPO_REGISTRY_API = Ok response -> ok response = true ->
  json response = Ok body -> fromJSON body = Ok availableRepos ->
  repo ∈ availableRepos ->
  componentDidMount REPO_REGISTRY_API fetch fromJSON
    (constructor (props_localStore (onUserSelect repo this))) console
  = ({| state_status := VALID (Lodash.sortBy availableRepos [owner; name]) repo;
        props_localStore := props_localStore (onUserSelect repo this);
        props_onChange_calls := [repo] |}, console).
Proof.
  intros Hlaw Hf Hok Hj Hd Hin.
  rewrite <- onUserSelect_store in Hlaw.
  remember (props_localStore (onUserSelect repo this)) as store eqn:Estore.
  clear Estore. unfold_componentDidMount. simpl.
  destruct availableRepos as [|first rest]; [inversion Hin|].
  rewrite (loadStatus_resolved _ _ _ _ _ _ _ _ _ _ Hf Hok Hj Hd Hlaw).
  unfold resolved. rewrite (find_deepEqual_repo _ _ Hin). reflexivity.
Qed.

Lemma componentDidMount_after_onUserSelect_witness :
  componentDidMount fakeUrl
    (fakeFetch (Ok (registryBody [repo_bm; repo_aa; repo_az]))) fakeFromJSON
    (constructor
       (props_localStore (onUserSelect repo_aa (constructor (∅ : gmap string JsValue))))) []
  = ({| state_status := VALID (Lodash.sortBy [repo_bm; repo_aa; repo_az] [owner; name]) repo_aa;
        props_localStore :=
          props_localStore (onUserSelect repo_aa (constructor (∅ : gmap string JsValue)));
        props_onChange_calls := [repo_aa] |}, []).
Proof.
  apply (componentDidMount_after_onUserSelect fakeUrl
           (fakeFetch (Ok (registryBody [repo_bm; repo_aa; repo_az]))) fakeFromJSON
           (constructor (∅ : gmap string JsValue)) repo_aa
           (registryBody [repo_bm; repo_aa; repo_az])
           (JArr (map repoToJs [repo_bm; repo_aa; repo_az])));
    try reflexivity.
  apply elem_of_cons. right. apply elem_of_cons. left. reflexivity.
Defined.

(** X11.  Of two selections in a row the second one wins: over an
    in-memory store the status and the store end as after the second
    selection alone, and the host has been told of both, in order. *)
Theorem onUserSelect_twice (repo1 repo2 : Repo) (this : Component (gmap string JsValue)) :
  onUserSelect repo2 (onUserSelect repo1 this)
  = {| state_status := state_status (onUserSelect repo2 this);
       props_localStore := props_localStore (onUserSelect repo2 this);
       props_onChange_calls := (props_onChange_calls this ++ [repo1; repo2])%list |}.
Proof.
  destruct this as [status store calls].
  unfold onUserSelect, onChange, localStore_set, props_onChange, setState.
  destruct status; simpl; rewrite insert_insert_eq, <- app_assoc; reflexivity.
Qed.

(** ** What the selector shows and allows *)

Lemma offered_VALID (availableRepos : list Repo) (selectedRepo : Repo) :
  offered (VALID availableRepos selectedRepo) = map repoString availableRepos.
Proof. unfold offered. simpl. apply map_map. Qed.

Lemma offered_not_VALID (status : Status) :
  statusType status <> VALID_t -> offered status = [].
Proof. destruct status; simpl; intros Hne; try reflexivity. contradiction. Qed.

Lemma onUserSelect_VALID {S : Type} `{LocalStore S}
    (repo : Repo) (this : Component S) (availableRepos : list Repo) (selectedRepo : Repo) :
  state_status this = VALID availableRepos selectedRepo ->
  state_status (onUserSelect repo this) = VALID availableRepos repo.
Proof. intros Hs. unfold onUserSelect, onChange. rewrite Hs. reflexivity. Qed.

Lemma onUserSelect_calls {S : Type} `{LocalStore S} (repo : Repo) (this : Component S) :
  props_onChange_calls (onUserSelect repo this) = (props_onChange_calls this ++ [repo])%list.
Proof. unfold onUserSelect, onChange. destruct (state_status this); reflexivity. Qed.

Lemma select_onChange_offered_inv {S : Type} `{LocalStore S}
    (this this' : Component S) (availableRepos : list Repo) (value : string) :
  value ∈ map repoString availableRepos ->
  select_onChange value this = Ok this' ->
  exists repo,
    repo ∈ availableRepos /\ value = repoString repo
    /\ matchValidRe (owner repo) = true /\ matchValidRe (name repo) = true
    /\ this' = onUserSelect repo this.
Proof.
  intros (r & -> & Hr)%list_elem_of_fmap Hsel.
  unfold select_onChange in Hsel.
  apply exc_bind_Ok in Hsel as (repo & Hparse & Hok). injection Hok as <-.
  pose proof (repoString_parsed _ _ Hparse) as ->.
  apply repoStringToRepo_Ok in Hparse as (_ & Ho & Hn).
  exists r. auto.
Qed.

(** X12.  While the status is [LOADING], [NO_REPOS] or [FAILURE] the
    selector offers nothing to pick: no session through it changes
    the status, the store or what the host has been told. *)
Theorem Session_not_VALID {S : Type} `{LocalStore S} (start this : Component S) :
  statusType (state_status start) <> VALID_t ->
  Session start this ->
  this = start.
Proof.
  intros Hne. induction 1 as [|this this' value _ IH Hin _]; [reflexivity|].
  subst this. rewrite (offered_not_VALID _ Hne) in Hin. inversion Hin.
Qed.

Lemma Session_not_VALID_witness :
  statusType (state_status (constructor (∅ : gmap string JsValue))) <> VALID_t
  /\ Session (constructor (∅ : gmap string JsValue)) (constructor ∅)
  /\ constructor (∅ : gmap string JsValue) = constructor ∅.
Proof.
  split; [discriminate|]. split; [constructor|].
  apply (Session_not_VALID (constructor (∅ : gmap string JsValue)) (constructor ∅));
    [discriminate | constructor].
Defined.

Lemma Session_picked {S : Type} `{LocalStore S}
    (start this : Component S) (availableRepos : list Repo) (selectedRepo : Repo) :
  state_status start = VALID availableRepos selectedRepo ->
  Session start this ->
  exists picked,
    state_status this = VALID availableRepos (default selectedRepo (last picked))
    /\ props_onChange_calls this = (props_onChange_calls start ++ picked)%list
    /\ props_localStore this = writeAll picked (props_localStore start)
    /\ Forall
         (fun repo =>
            repo ∈ availableRepos
            /\ matchValidRe (owner repo) = true /\ matchValidRe (name repo) = true)
         picked.
Proof.
  intros Hstart. induction 1 as [|this this' value _ IH Hin Hsel].
  - exists []. simpl. rewrite app_nil_r. auto.
  - destruct IH as (picked & Hs & Hcalls & Hstore & Hpicked).
    rewrite Hs, offered_VALID in Hin.
    destruct (select_onChange_offered_inv _ _ _ _ Hin Hsel)
      as (repo & Hrepo & _ & Ho & Hn & ->).
    exists (picked ++ [repo])%list. repeat split.
    + rewrite last_snoc. simpl. eapply onUserSelect_VALID, Hs.
    + rewrite onUserSelect_calls, Hcalls, app_assoc. reflexivity.
    + rewrite onUserSelect_store, Hstore. unfold writeAll.
      rewrite fold_left_app. reflexivity.
    + apply Forall_app. split; [exact Hpicked|]. constructor; auto.
Qed.

Lemma Session_stuck {S : Type} `{LocalStore S} (start this : Component S) :
  statusType (state_status start) <> VALID_t ->
  Session start this ->
  this = start.
Proof.
  intros Hne. induction 1 as [|this this' value _ IH Hin _]; [reflexivity|].
  subst this. rewrite (offered_not_VALID _ Hne) in Hin. inversion Hin.
Qed.

Lemma Session_selected_is_available {S : Type} `{LocalStore S} (start this : Component S) :
  selected_is_available (state_status start) ->
  Session start this ->
  selected_is_available (state_status this).
Proof.
  intros Hinv Hsession.
  destruct (state_status start) as [|availableRepos selectedRepo| |] eqn:Hs.
  2: { destruct (Session_picked _ _ _ _ Hs Hsession) as (picked & -> & _ & _ & Hpicked).
       simpl in *. destruct (last picked) as [repo|] eqn:Hlast; simpl; [|exact Hinv].
       rewrite Forall_forall in Hpicked.
       apply Hpicked. apply last_Some in Hlast as [init ->].
       apply elem_of_app. right. left. }
  all: rewrite (Session_stuck start this ltac:(rewrite Hs; discriminate) Hsession), Hs;
    exact I.
Qed.

(** X13.  A session through the selector that starts in a [VALID]
    status stays in [VALID] with the same [availableRepos]; the
    repositories picked all are available ones whose owner and name
    match the pattern; the host has been told of exactly them, in
    order; the store has had exactly them written to it, in order;
    the selection is the last of them, or the initial one if there
    was none. *)
Theorem Session_VALID {S : Type} `{LocalStore S}
    (start this : Component S) (availableRepos : list Repo) (selectedRepo : Repo) :
  state_status start = VALID availableRepos selectedRepo ->
  Session start this ->
  exists picked,
    state_status this = VALID availableRepos (default selectedRepo (last picked))
    /\ props_onChange_calls this = (props_onChange_calls start ++ picked)%list
    /\ props_localStore this = writeAll picked (props_localStore start)
    /\ Forall
         (fun repo =>
            repo ∈ availableRepos
            /\ matchValidRe (owner repo) = true /\ matchValidRe (name repo) = true)
         picked.
Proof. apply Session_picked. Qed.

Lemma Session_VALID_witness :
  let start :=
    {| state_status := VALID [repo_aa; repo_az; repo_bm] repo_az;
       props_localStore := (∅ : gmap string JsValue);
       props_onChange_calls := [repo_az] |} in
  Session start (onUserSelect repo_bm start)
  /\ exists picked,
       state_status (onUserSelect repo_bm start)
       = VALID [repo_aa; repo_az; repo_bm] (default repo_az (last picked))
       /\ props_onChange_calls (onUserSelect repo_bm start)
          = (props_onChange_calls start ++ picked)%list
       /\ props_localStore (onUserSelect repo_bm start)
          = writeAll picked (props_localStore start)
       /\ Forall
            (fun repo =>
               repo ∈ [repo_aa; repo_az; repo_bm]
               /\ matchValidRe (owner repo) = true /\ matchValidRe (name repo) = true)
            picked.
Proof.
  intros start.
  assert (Hsession : Session start (onUserSelect repo_bm start)).
  { apply (session_pick start start (onUserSelect repo_bm start) "b/m").
    - constructor.
    - apply elem_of_cons. right. apply elem_of_cons. right. apply elem_of_cons. left.
      reflexivity.
    - reflexivity. }
  split; [exact Hsession|].
  apply (Session_VALID start (onUserSelect repo_bm start) [repo_aa; repo_az; repo_bm] repo_az);
    [reflexivity | exact Hsession].
Defined.

(** X15.  The selector always shows its selection: whatever status
    [loadStatus] ends in, a [<select>] is rendered exactly when the
    status is [VALID], and its [value] is then the value of one of
    its [<option>]s. *)
Theorem render_loadStatus {S : Type} `{LocalStore S}
    (REPO_REGISTRY_API : string) (fetch : string -> Exc Response)
    (fromJSON : JsValue -> Exc (list Repo)) (localStore : S) (console : list Logged) :
  exists console' status,
    loadStatus REPO_REGISTRY_API fetch fromJSON localStore console = (console', Ok status)
    /\ (is_Some (selectOf (render status)) <-> statusType status = VALID_t)
    /\ (forall select,
           selectOf (render status) = Some select ->
           select_value select ∈ map option_value (select_options select)).
Proof.
  destruct (loadStatus_Resolution REPO_REGISTRY_API fetch fromJSON localStore console)
    as (console' & status & Hl & Hr).
  exists console', status. split; [exact Hl|].
  apply Resolution_selected_is_available in Hr.
  destruct status as [|availableRepos selectedRepo| |]; simpl in *.
  - split; [split; [intros [? Habs]; discriminate | discriminate]|]. discriminate.
  - split; [split; [reflexivity | eauto]|].
    intros select [= <-]. simpl. rewrite map_map. simpl.
    apply (list_elem_of_fmap_2 repoString), Hr.
  - split; [split; [intros [? Habs]; discriminate | discriminate]|]. discriminate.
  - split; [split; [intros [? Habs]; discriminate | discriminate]|]. discriminate.
Qed.

(** X16.  The [<option>]s have distinct keys when the available
    repositories are distinct and no owner holds a slash. *)
Theorem render_option_keys_NoDup
    (availableRepos : list Repo) (selectedRepo : Repo) (select : SelectElement) :
  selectOf (render (VALID availableRepos selectedRepo)) = Some select ->
  NoDup availableRepos ->
  Forall (fun repo => occurrences "/" (owner repo) = 0) availableRepos ->
  NoDup (map option_key (select_options select)).
Proof.
  intros [= <-] Hnd Hslash. simpl. rewrite map_map. simpl.
  rewrite Forall_forall in Hslash.
  apply (NoDup_fmap_2_strong repoString); [|exact Hnd].
  intros r r' Hr Hr' Heq.
  apply repoString_inj_slash_free; auto.
Qed.

Lemma repos_NoDup : NoDup [repo_aa; repo_az; repo_bm].
Proof.
  repeat constructor; rewrite ?elem_of_cons; try (intros Hin; inversion Hin; fail);
    intuition (try discriminate); match goal with Hin : _ ∈ [] |- _ => inversion Hin end.
Qed.

Lemma render_option_keys_NoDup_witness :
  NoDup (map option_key
           (select_options
              {| select_value := "a/z";
                 select_options :=
                   [ mkOption "a/a" "a/a" "a/a"; mkOption "a/z" "a/z" "a/z";
                     mkOption "b/m" "b/m" "b/m" ] |})).
Proof.
  apply (render_option_keys_NoDup [repo_aa; repo_az; repo_bm] repo_az).
  - reflexivity.
  - exact repos_NoDup.
  - repeat constructor.
Defined.

Lemma componentDidMount_status {S : Type} `{LocalStore S}
    (REPO_REGISTRY_API : string) (fetch : string -> Exc Response)
    (fromJSON : JsValue -> Exc (list Repo)) (this : Component S) (console : list Logged) :
  exists console' status,
    loadStatus REPO_REGISTRY_API fetch fromJSON (props_localStore this) console
    = (console', Ok status)
    /\ Resolution REPO_REGISTRY_API fetch fromJSON (props_localStore this)
         console console' status
    /\ state_status (fst (componentDidMount REPO_REGISTRY_API fetch fromJSON this console))
       = status.
Proof.
  destruct (loadStatus_Resolution REPO_REGISTRY_API fetch fromJSON
              (props_localStore this) console) as (console' & status & Hl & Hr).
  exists console', status. split; [exact Hl|]. split; [exact Hr|].
  unfold_componentDidMount. rewrite Hl. destruct status; reflexivity.
Qed.

(** X14.  Through the component as mounted, the selection always is
    among the available repositories: once [componentDidMount] has
    run, the status is not [LOADING], and after any session through
    the selector the [selectedRepo] of a [VALID] status is one of its
    [availableRepos]. *)
Theorem mounted_Session_selected_is_available {S : Type} `{LocalStore S}
    (REPO_REGISTRY_API : string) (fetch : string -> Exc Response)
    (fromJSON : JsValue -> Exc (list Repo))
    (localStore : S) (console : list Logged) (this : Component S) :
  Session
    (fst (componentDidMount REPO_REGISTRY_API fetch fromJSON (constructor localStore) console))
    this ->
  state_status this <> LOADING /\ selected_is_available (state_status this).
Proof.
  intros Hsession.
  destruct (componentDidMount_status REPO_REGISTRY_API fetch fromJSON
              (constructor localStore) console) as (console' & status & _ & Hr & Hs).
  pose proof (Resolution_selected_is_available _ _ _ _ _ _ _ Hr) as Hinv.
  rewrite <- Hs in Hinv.
  split; [|eapply Session_selected_is_available; eassumption].
  destruct status as [|availableRepos selectedRepo| |].
  - remember LOADING as status eqn:E. destruct Hr; discriminate E.
  - destruct (Session_picked _ _ _ _ Hs Hsession) as (picked & -> & _). discriminate.
  - rewrite (Session_stuck _ this ltac:(rewrite Hs; discriminate) Hsession), Hs.
    discriminate.
  - rewrite (Session_stuck _ this ltac:(rewrite Hs; discriminate) Hsession), Hs.
    discriminate.
Qed.

Lemma mounted_Session_selected_is_available_witness :
  let mounted :=
    fst (componentDidMount fakeUrl
           (fakeFetch (Ok (registryBody [repo_bm; repo_aa; repo_az]))) fakeFromJSON
           (constructor (∅ : gmap string JsValue)) []) in
  Session mounted (onUserSelect repo_aa mounted)
  /\ state_status (onUserSelect repo_aa mounted) <> LOADING
  /\ selected_is_available (state_status (onUserSelect repo_aa mounted)).
Proof.
  intros mounted.
  assert (Hsession : Session mounted (onUserSelect repo_aa mounted)).
  { apply (session_pick mounted mounted (onUserSelect repo_aa mounted) "a/a").
    - constructor.
    - apply elem_of_cons. left. reflexivity.
    - reflexivity. }
  split; [exact Hsession|].
  apply (mounted_Session_selected_is_available fakeUrl
           (fakeFetch (Ok (registryBody [repo_bm; repo_aa; repo_az]))) fakeFromJSON
           (∅ : gmap string JsValue) [] (onUserSelect repo_aa mounted)).
  exact Hsession.
Defined.
